(** * Type erasure of ts-to-js ([src/index.ts]) in Rocq

    Shallow embedding of [transformToJs] from [src/index.ts]:
    - the syntax tree handed over by [ts.createSourceFile] (external parser),
      as a rose tree of [Node]s carrying the fields [walk] reads;
    - the recursive [walk] of the source, which queues [code.overwrite]
      calls on a MagicString buffer; the buffer is the list of queued edits,
      in the order of the calls;
    - [code.toString()], the rendering of the queued edits over the
      original text: [trace], the rendering for well-formed edit lists, and
      the chunk chain MagicString keeps ([ms_transform]), which follows it
      for any sequence of [overwrite] calls, overlapping or throwing ones
      included.  The final [prettier.format] call is an external formatter
      and is not modelled;
    - [normalize], the whitespace normalization the tests compare with. *)

From Stdlib Require Import List String Ascii Bool Arith NArith Lia.
Import ListNotations.

(** ** Syntax trees, as the TypeScript parser builds them *)

(** The subset of [ts.SyntaxKind] that the walker tests or that the
    concrete trees of this file use. *)
Inductive SyntaxKind : Type :=
| SourceFile | EndOfFileToken | Identifier | StringLiteral | NumericLiteral
| ImportDeclaration | ImportClause | NamedImports | ImportSpecifier
| ExportDeclaration | NamedExports | ExportSpecifier
| AsExpression | TypeAliasDeclaration | InterfaceDeclaration
| EnumDeclaration | ModuleDeclaration | ModuleBlock
| VariableStatement | VariableDeclarationList | VariableDeclaration
| FunctionDeclaration | FunctionExpression | ArrowFunction
| MethodDeclaration | ClassDeclaration | Parameter_ | TypeParameter
| Block | ExpressionStatement | ParenthesizedExpression
| TypeReference | TypeLiteral | PropertySignature | ComputedPropertyName
| NumberKeyword | StringKeyword | ReturnStatement | CallExpression
| JsxSelfClosingElement | JsxAttributes | JsxAttribute | JsxNamespacedName
| JsxExpression | EqualsGreaterThanToken
| ColonToken | LessThanToken | GreaterThanToken | SemicolonToken
| EqualsToken | CommaToken | OpenBraceToken | CloseBraceToken
| OpenParenToken | CloseParenToken | OpenBracketToken | CloseBracketToken
| ImportKeyword | ExportKeyword | FromKeyword | TypeKeyword | AsKeyword
| ConstKeyword | LetKeyword | FunctionKeyword | NamespaceKeyword
| DeclareKeyword | ModuleKeyword | ClassKeyword | ReturnKeyword
| SlashGreaterThanToken.

Definition SyntaxKind_eq_dec (a b : SyntaxKind) : {a = b} + {a <> b}.
Proof. decide equality. Defined.

Definition kind_eqb (a b : SyntaxKind) : bool :=
  if SyntaxKind_eq_dec a b then true else false.

(** A node of the tree.  [pos] is the full start (it includes the leading
    trivia: whitespace and comments), [start] is [node.getStart()], [end_]
    is [node.end].  The optional and list fields are the kind-specific
    properties the walker reads ([importClause], [isTypeOnly], [elements],
    [expression], [type], [typeParameters], [parameters]); [tokens] are the
    token children returned by [node.getChildren()], in source order, and
    [children] are the nodes [ts.forEachChild] visits, in order. *)
Unset Elimination Schemes.
Inductive Node : Type := mkNode {
  kind : SyntaxKind;
  pos : nat;
  start : nat;
  end_ : nat;
  isTypeOnly : bool;
  importClause : option Node;
  elements : list Node;
  expression : option Node;
  type_ : option Node;
  typeParameters : option (list Node);
  parameters : list Node;
  tokens : list Node;
  children : list Node
}.
Set Elimination Schemes.

(** Induction over nodes through the [children] that [forEachChild]
    visits. *)
Section Node_induction.
Variable P : Node -> Prop.
Hypothesis P_node :
  forall n, (forall c, In c (children n) -> P c) -> P n.

Fixpoint Node_children_ind (n : Node) : P n.
Proof.
  apply P_node. destruct n as [k p s e t ic el ex ty tp ps tk ch]. simpl.
  induction ch as [|c ch IHch]; intros c' Hin.
  - destruct Hin.
  - destruct Hin as [<- | Hin].
    + apply Node_children_ind.
    + apply IHch. exact Hin.
Qed.
End Node_induction.

(** [node.getText()]: the source text from [getStart()] to [end]. *)
Definition getText (src : string) (n : Node) : string :=
  substring (start n) (end_ n - start n) src.

(** ** The MagicString buffer *)

(** One [code.overwrite(start, end, content)] call. *)
Record Edit : Type := overwrite {
  ostart : nat;
  oend : nat;
  content : string
}.

(** ** The walker ([walk], lines 19-114 of [src/index.ts]) *)

Definition is_kind (k : SyntaxKind) (n : Node) : bool := kind_eqb (kind n) k.

(** [node.importClause?.isTypeOnly] *)
Definition importClause_isTypeOnly (n : Node) : bool :=
  match importClause n with
  | Some c => isTypeOnly c
  | None => false
  end.

(** [children.find((c) => c.kind === k)] over [node.getChildren()]. *)
Definition find_token (k : SyntaxKind) (n : Node) : option Node :=
  find (is_kind k) (tokens n).

(** ["{" + list.map((i) => i.getText()).join(sep) + "}"] after
    [filter((e) => !e.isTypeOnly)]. *)
Definition specifier_list (src sep : string) (els : list Node) : string :=
  ("{" ++ concat sep (map (getText src) (filter (fun e => negb (isTypeOnly e)) els))
   ++ "}")%string.

(** Lines 65-74: a variable declaration with a declared type. *)
Definition variable_edits (n : Node) : list Edit :=
  if is_kind VariableDeclaration n then
    match type_ n with
    | Some ty =>
        match find_token ColonToken n with
        | Some colon => [overwrite (pos colon) (end_ ty) ""]
        | None => []
        end
    | None => []
    end
  else [].

(** Lines 101-110: the body of [node.parameters.forEach]. *)
Definition parameter_edits (p : Node) : list Edit :=
  match type_ p with
  | Some ty =>
      match find_token ColonToken p with
      | Some colon => [overwrite (pos colon) (end_ ty) ""]
      | None => []
      end
  | None => []
  end.

Definition is_function_like (n : Node) : bool :=
  is_kind FunctionDeclaration n || is_kind FunctionExpression n
  || is_kind ArrowFunction n.

(** Lines 76-111: functions, function expressions and arrow functions. *)
Definition function_edits (n : Node) : list Edit :=
  if is_function_like n then
    (match typeParameters n with
     | Some (_ :: _) =>
         match find_token LessThanToken n, find_token GreaterThanToken n with
         | Some lt, Some gt => [overwrite (pos lt) (end_ gt) ""]
         | _, _ => []
         end
     | _ => []
     end)
    ++ (match type_ n with
        | Some ty =>
            match find_token ColonToken n with
            | Some colon => [overwrite (pos colon) (end_ ty) ""]
            | None => []
            end
        | None => []
        end)
    ++ flat_map parameter_edits (parameters n)
  else [].

Definition is_declaration_erased (n : Node) : bool :=
  is_kind TypeAliasDeclaration n || is_kind InterfaceDeclaration n
  || is_kind EnumDeclaration n || is_kind ModuleDeclaration n.

(** [walk]: the edits queued by [walk(node)], in the order of the
    [overwrite] calls.  Each [return] of the source ends the list. *)
Fixpoint walk (src : string) (node : Node) {struct node} : list Edit :=
  if is_kind ImportDeclaration node && importClause_isTypeOnly node then
    [overwrite (pos node) (end_ node) ""]
  else if is_kind NamedImports node then
    [overwrite (pos node) (end_ node) (specifier_list src "," (elements node))]
  else if is_kind ExportDeclaration node && isTypeOnly node then
    [overwrite (pos node) (end_ node) ""]
  else if is_kind NamedExports node then
    [overwrite (pos node) (end_ node) (specifier_list src ", " (elements node))]
  else if is_kind AsExpression node then
    [overwrite (pos node) (end_ node)
       (match expression node with Some x => getText src x | None => "" end)]
  else if is_declaration_erased node then
    [overwrite (pos node) (end_ node) ""]
  else
    variable_edits node ++ function_edits node
    ++ (fix forEachChild (cs : list Node) : list Edit :=
          match cs with
          | [] => []
          | c :: cs' => walk src c ++ forEachChild cs'
          end) (children node).

(** The edits [walk] queues at [node] itself, before it returns or
    descends, and whether it returns without descending. *)
Definition local_edits (src : string) (node : Node) : list Edit :=
  if is_kind ImportDeclaration node && importClause_isTypeOnly node then
    [overwrite (pos node) (end_ node) ""]
  else if is_kind NamedImports node then
    [overwrite (pos node) (end_ node) (specifier_list src "," (elements node))]
  else if is_kind ExportDeclaration node && isTypeOnly node then
    [overwrite (pos node) (end_ node) ""]
  else if is_kind NamedExports node then
    [overwrite (pos node) (end_ node) (specifier_list src ", " (elements node))]
  else if is_kind AsExpression node then
    [overwrite (pos node) (end_ node)
       (match expression node with Some x => getText src x | None => "" end)]
  else if is_declaration_erased node then
    [overwrite (pos node) (end_ node) ""]
  else variable_edits node ++ function_edits node.

Definition returns_early (node : Node) : bool :=
  (is_kind ImportDeclaration node && importClause_isTypeOnly node)
  || is_kind NamedImports node
  || (is_kind ExportDeclaration node && isTypeOnly node)
  || is_kind NamedExports node || is_kind AsExpression node
  || is_declaration_erased node.

(** The nodes [walk] is called on, in call order. *)
Fixpoint visited (node : Node) : list Node :=
  node :: (if returns_early node then []
           else (fix go (cs : list Node) : list Node :=
                   match cs with
                   | [] => []
                   | c :: cs' => visited c ++ go cs'
                   end) (children node)).

(** ** Rendering: [code.toString()] *)

(** A piece of the rendered text: the original byte at a position, or the
    content of an overwrite. *)
Inductive piece : Type := Orig (p : nat) | Ins (s : string).

Definition edit_at (es : list Edit) (i : nat) : option Edit :=
  find (fun e => Nat.eqb (ostart e) i) es.

(** The rendered text, left to right: at a position where an overwrite
    starts, its content, then the text after its end; elsewhere the
    original byte.  This is MagicString's result for non-empty, pairwise
    disjoint overwrites within the text ([edits_ok] below) only: where
    ranges overlap MagicString keeps text this function skips.  The chunk
    chain of the next section follows MagicString for every sequence of
    calls. *)
Fixpoint trace_from (len : nat) (es : list Edit) (fuel i : nat) : list piece :=
  match fuel with
  | 0 => []
  | S f =>
      if len <=? i then []
      else match edit_at es i with
           | Some e => Ins (content e) :: trace_from len es f (oend e)
           | None => Orig i :: trace_from len es f (S i)
           end
  end.

Definition trace (src : string) (es : list Edit) : list piece :=
  trace_from (length src) es (S (length src)) 0.

Definition emit (src : string) (pc : piece) : string :=
  match pc with Orig p => substring p 1 src | Ins s => s end.

Definition toString (src : string) (es : list Edit) : string :=
  concat "" (map (emit src) (trace src es)).

(** [code.toString()] after [walk(ast)]: the text handed to the formatter. *)
Definition transform (src : string) (ast : Node) : string :=
  toString src (walk src ast).

(** Well-formed edit lists: every overwrite is non-empty and within the
    text, and no two overwrite ranges overlap. *)
Definition edit_ok (len : nat) (e : Edit) : bool :=
  (ostart e <? oend e) && (oend e <=? len).

Definition disjoint (e1 e2 : Edit) : bool :=
  (oend e1 <=? ostart e2) || (oend e2 <=? ostart e1).

Fixpoint pairwise_disjoint (es : list Edit) : bool :=
  match es with
  | [] => true
  | e :: es' => forallb (disjoint e) es' && pairwise_disjoint es'
  end.

Definition edits_ok (len : nat) (es : list Edit) : bool :=
  forallb (edit_ok len) es && pairwise_disjoint es.

Definition covered (es : list Edit) (p : nat) : bool :=
  existsb (fun e => (ostart e <=? p) && (p <? oend e)) es.

(** ** The MagicString buffer as chunks ([magic-string] 0.30) *)

(** [trace] above follows the rendering only for well-formed edit lists.
    The buffer itself is a chain of chunks covering the original text in
    order: a chunk has its original range [start, end), its current
    [content] and whether it has been [edited]. *)
Record Chunk : Type := mkChunk {
  cstart : nat;
  cend : nat;
  ccontent : string;
  cedited : bool
}.

(** [new MagicString(src)]: one chunk holding the whole text. *)
Definition magic_string (src : string) : list Chunk :=
  [mkChunk 0 (length src) src false].

(** [Chunk.split(index)]: an unedited chunk is cut into its two original
    slices; an edited one gives two edited chunks with empty content. *)
Definition split_chunk (c : Chunk) (index : nat) : list Chunk :=
  let k := index - cstart c in
  if cedited c then
    [mkChunk (cstart c) index "" true; mkChunk index (cend c) "" true]
  else
    [mkChunk (cstart c) index (substring 0 k (ccontent c)) false;
     mkChunk index (cend c)
       (substring k (length (ccontent c) - k) (ccontent c)) false].

(** [_split(index)]: nothing when [index] is a chunk boundary (or outside
    the text); otherwise [_splitChunk] on the chunk containing it, which
    throws ([None]) when that chunk is edited with non-empty content. *)
Fixpoint split_at (index : nat) (cs : list Chunk) : option (list Chunk) :=
  match cs with
  | [] => Some []
  | c :: cs' =>
      if (cstart c <? index) && (index <? cend c) then
        if cedited c && (0 <? length (ccontent c)) then None
        else Some (split_chunk c index ++ cs')
      else option_map (cons c) (split_at index cs')
  end.

(** [chunk.edit(...)] for the chunks from [byStart[start]] up to
    [byEnd[end]]: the first takes the new content, the following ones the
    empty string. *)
Definition edit_chunk (e : Edit) (c : Chunk) : Chunk :=
  if (ostart e <=? cstart c) && (cstart c <? oend e) then
    mkChunk (cstart c) (cend c)
      (if cstart c =? ostart e then content e else "") true
  else c.

(** The chunks up to and including the one that ends at [i]
    ([byEnd[i]]), if there is one. *)
Fixpoint upto_end (i : nat) (cs : list Chunk) : option (list Chunk) :=
  match cs with
  | [] => None
  | c :: cs' =>
      if cend c =? i then Some [c]
      else option_map (cons c) (upto_end i cs')
  end.

(** [update(start, end, content)], which [overwrite] calls: it throws when
    [end] is past the text ("end is out of bounds") or the range is empty;
    then it splits at [start] and at [end].  When a chunk starts at
    [start] and [start < end], the chunks of the range are edited; when
    [start > end], the loop from [byStart[start]] runs off the chain and
    throws "Cannot overwrite across a split point".  When no chunk starts
    at [start] ([start] at or past the end of the text), a new edited
    chunk is linked after [byEnd[end]], which drops the chunks after it,
    and a missing [byEnd[end]] is a [TypeError]. *)
Definition ms_update (len : nat) (cs : list Chunk) (e : Edit) : option (list Chunk) :=
  if len <? oend e then None
  else if ostart e =? oend e then None
  else
    match split_at (ostart e) cs with
    | None => None
    | Some cs1 =>
        match split_at (oend e) cs1 with
        | None => None
        | Some cs2 =>
            if existsb (fun c => cstart c =? ostart e) cs2 then
              if oend e <? ostart e then None
              else Some (map (edit_chunk e) cs2)
            else
              match upto_end (oend e) cs2 with
              | None => None
              | Some pre =>
                  Some (pre ++ [mkChunk (ostart e) (oend e) (content e) true])
              end
        end
    end.

(** The [overwrite] calls of the walk, in order; [None] when one throws. *)
Fixpoint ms_run (len : nat) (cs : list Chunk) (es : list Edit) : option (list Chunk) :=
  match es with
  | [] => Some cs
  | e :: es' =>
      match ms_update len cs e with
      | None => None
      | Some cs' => ms_run len cs' es'
      end
  end.

(** [code.toString()]: the contents of the chunks, in chain order. *)
Definition ms_toString (cs : list Chunk) : string :=
  concat "" (map ccontent cs).

(** [code.toString()] after [walk(ast)], or [None] when an [overwrite]
    call throws. *)
Definition ms_transform (src : string) (ast : Node) : option string :=
  option_map ms_toString
    (ms_run (length src) (magic_string src) (walk src ast)).

(** The pieces a chunk chain renders: the original bytes of an unedited
    chunk, the content of an edited one. *)
Definition chunk_pieces (c : Chunk) : list piece :=
  if cedited c then [Ins (ccontent c)]
  else map Orig (seq (cstart c) (cend c - cstart c)).

Definition ms_pieces (cs : list Chunk) : list piece :=
  flat_map chunk_pieces cs.


(** Invariants of the chunk chain.  [chain a cs b]: the chunks cover
    [a, b) in order, without gaps. *)
Fixpoint chain (a : nat) (cs : list Chunk) (b : nat) : Prop :=
  match cs with
  | [] => a = b
  | c :: cs' => cstart c = a /\ cstart c <= cend c /\ chain (cend c) cs' b
  end.

(** Whether the chunk holding position [p] has been edited. *)
Definition edited_at (cs : list Chunk) (p : nat) : bool :=
  existsb (fun c => cedited c && (cstart c <=? p) && (p <? cend c)) cs.

(** An unedited chunk holds its original slice of the text. *)
Definition content_ok (src : string) (cs : list Chunk) : Prop :=
  forall c, In c cs -> cedited c = false ->
  ccontent c = substring (cstart c) (cend c - cstart c) src.

(** An edited chunk with non-empty content starts where an overwrite with
    that content started, and ends within it. *)
Definition origin_ok (done : list Edit) (cs : list Chunk) : Prop :=
  forall c, In c cs -> cedited c = true -> ccontent c <> EmptyString ->
  exists d, In d done /\ content d <> EmptyString /\ ostart d = cstart c
            /\ cend c <= oend d.

(** The buffer after the overwrites [done]. *)
Definition ms_inv (src : string) (done : list Edit) (cs : list Chunk) : Prop :=
  chain 0 cs (length src) /\ content_ok src cs
  /\ (forall p, edited_at cs p = covered done p) /\ origin_ok done cs.

(** [i] is strictly inside the range of [d]. *)
Definition inside (i : nat) (d : Edit) : Prop := ostart d < i < oend d.


(** No chunk has [i] strictly inside its range. *)
Definition nocut (i : nat) (cs : list Chunk) : Prop :=
  forall c, In c cs -> ~ (cstart c < i < cend c).

(** For edit lists within the text, non-empty and pairwise disjoint: every
    chunk boundary is [0], the length, or a boundary of a done overwrite,
    and the edited chunks are exactly the done overwrites. *)
Definition boundary (done : list Edit) (x : nat) : Prop :=
  exists d, In d done /\ (x = ostart d \/ x = oend d).

Definition cut_points_ok (len : nat) (done : list Edit) (cs : list Chunk) : Prop :=
  forall c, In c cs -> cstart c < cend c
    /\ (cstart c = 0 \/ boundary done (cstart c))
    /\ (cend c = len \/ boundary done (cend c)).

Definition edits_match (done : list Edit) (cs : list Chunk) : Prop :=
  (forall c, In c cs -> cedited c = true ->
     exists d, In d done /\ ostart d = cstart c /\ oend d = cend c
               /\ content d = ccontent c)
  /\ (forall d, In d done ->
     exists c, In c cs /\ cedited c = true /\ cstart c = ostart d
               /\ cend c = oend d /\ ccontent c = content d).

(** ** Concrete trees *)

(** The double-quote character. *)
Definition dq : string := String (ascii_of_nat 34) EmptyString.

Definition mk (k : SyntaxKind) (p s e : nat) (ch : list Node) : Node :=
  mkNode k p s e false None [] None None None [] [] ch.

Definition tok (k : SyntaxKind) (p s e : nat) : Node := mk k p s e [].

(** Scenario 2: [const a: number = 123;] *)
Definition src_const : string := "const a: number = 123;".

Definition decl_a : Node :=
  mkNode VariableDeclaration 5 6 21 false None [] None
    (Some (tok NumberKeyword 8 9 15)) None []
    [tok ColonToken 7 7 8; tok EqualsToken 15 16 17]
    [tok Identifier 5 6 7; tok NumberKeyword 8 9 15; tok NumericLiteral 17 18 21].

Definition ast_const : Node :=
  mk SourceFile 0 0 22
    [mkNode VariableStatement 0 0 22 false None [] None None None []
       [tok SemicolonToken 21 21 22]
       [mkNode VariableDeclarationList 0 0 21 false None [] None None None []
          [tok ConstKeyword 0 0 5] [decl_a]];
     tok EndOfFileToken 22 22 22].

(** [i] is not strictly inside an overwritten range. *)
Definition not_inside (es : list Edit) (i : nat) : Prop :=
  forall e, In e es -> ~ (ostart e < i < oend e).

(** Nodes with their tokens, and nodes with a declared [type]. *)
Definition mkt (k : SyntaxKind) (p s e : nat) (toks ch : list Node) : Node :=
  mkNode k p s e false None [] None None None [] toks ch.

Definition typed (k : SyntaxKind) (p s e : nat) (ty : Node) (toks ch : list Node)
  : Node :=
  mkNode k p s e false None [] None (Some ty) None [] toks ch.

(** [expr as T] *)
Definition as_expr (p s e : nat) (x ty : Node) (toks : list Node) : Node :=
  mkNode AsExpression p s e false None [] (Some x) (Some ty) None [] toks [x; ty].

(** A computed key with a cast inside a declared type:
    [const x: { [a as b]: number } = 1;] *)
Definition src_computed : string := "const x: { [a as b]: number } = 1;".

Definition computed_key : Node :=
  mkt ComputedPropertyName 10 11 19
    [tok OpenBracketToken 10 11 12; tok CloseBracketToken 18 18 19]
    [as_expr 12 12 18 (tok Identifier 12 12 13)
       (mk TypeReference 16 17 18 [tok Identifier 16 17 18])
       [tok AsKeyword 13 14 16]].

Definition type_literal : Node :=
  mkt TypeLiteral 8 9 29
    [tok OpenBraceToken 8 9 10; tok CloseBraceToken 27 28 29]
    [typed PropertySignature 10 11 27 (tok NumberKeyword 20 21 27)
       [tok ColonToken 19 19 20]
       [computed_key; tok NumberKeyword 20 21 27]].

Definition ast_computed : Node :=
  mk SourceFile 0 0 34
    [mkt VariableStatement 0 0 34 [tok SemicolonToken 33 33 34]
       [mkt VariableDeclarationList 0 0 33 [tok ConstKeyword 0 0 5]
          [typed VariableDeclaration 5 6 33 type_literal
             [tok ColonToken 7 7 8; tok EqualsToken 29 30 31]
             [tok Identifier 5 6 7; type_literal; tok NumericLiteral 31 32 33]]];
     tok EndOfFileToken 34 34 34].

(** All the nodes of a tree, reached through [children]. *)
Fixpoint nodes (n : Node) : list Node :=
  n :: (fix go (cs : list Node) : list Node :=
          match cs with
          | [] => []
          | c :: cs' => nodes c ++ go cs'
          end) (children n).

(** The node at a path of child indices. *)
Fixpoint descend (n : Node) (path : list nat) : option Node :=
  match path with
  | [] => Some n
  | i :: path' =>
      match nth_error (children n) i with
      | Some c => descend c path'
      | None => None
      end
  end.

(** Nodes whose whole range [walk] overwrites with the empty string. *)
Definition erased_whole (n : Node) : bool :=
  (is_kind ImportDeclaration n && importClause_isTypeOnly n)
  || (is_kind ExportDeclaration n && isTypeOnly n)
  || is_declaration_erased n.

(** Import declarations, clauses, specifier lists and specifiers. *)
Definition import_decl (p s e : nat) (clause spec : Node) (toks : list Node) : Node :=
  mkNode ImportDeclaration p s e false (Some clause) [] None None None [] toks
    [clause; spec].

Definition import_clause (p s e : nat) (typeOnly : bool) (toks ch : list Node)
  : Node :=
  mkNode ImportClause p s e typeOnly None [] None None None [] toks ch.

Definition named_list (k : SyntaxKind) (p s e : nat) (els toks : list Node) : Node :=
  mkNode k p s e false None els None None None [] toks els.

Definition specifier (k : SyntaxKind) (p s e : nat) (typeOnly : bool)
  (toks ch : list Node) : Node :=
  mkNode k p s e typeOnly None [] None None None [] toks ch.

(** Scenario 1:
    [import type { Foo } from "./foo"; import { Bar } from "./bar";] *)
Definition src_imports : string :=
  ("import type { Foo } from " ++ dq ++ "./foo" ++ dq ++ "; import { Bar } from "
   ++ dq ++ "./bar" ++ dq ++ ";")%string.

Definition import_type_foo : Node :=
  import_decl 0 0 33
    (import_clause 6 7 19 true [tok TypeKeyword 6 7 11]
       [named_list NamedImports 11 12 19
          [specifier ImportSpecifier 13 14 17 false [] [tok Identifier 13 14 17]]
          [tok OpenBraceToken 11 12 13; tok CloseBraceToken 17 18 19]])
    (tok StringLiteral 24 25 32)
    [tok ImportKeyword 0 0 6; tok FromKeyword 19 20 24; tok SemicolonToken 32 32 33].

Definition named_bar : Node :=
  named_list NamedImports 40 41 48
    [specifier ImportSpecifier 42 43 46 false [] [tok Identifier 42 43 46]]
    [tok OpenBraceToken 40 41 42; tok CloseBraceToken 46 47 48].

Definition import_bar : Node :=
  import_decl 33 34 62 (import_clause 40 41 48 false [] [named_bar])
    (tok StringLiteral 53 54 61)
    [tok ImportKeyword 33 34 40; tok FromKeyword 48 49 53;
     tok SemicolonToken 61 61 62].

Definition ast_imports : Node :=
  mk SourceFile 0 0 62 [import_type_foo; import_bar; tok EndOfFileToken 62 62 62].

(** Types and declarations inside the operand of a cast:
    [(function <G>(p: P): R { type A = B; let v: T; }) as X;] *)
Definition src_cast_fn : string :=
  "(function <G>(p: P): R { type A = B; let v: T; }) as X;".

Definition type_ref (p s e : nat) : Node :=
  mk TypeReference p s e [tok Identifier p s e].

Definition alias_A : Node :=
  mkt TypeAliasDeclaration 24 25 36
    [tok TypeKeyword 24 25 29; tok EqualsToken 31 32 33; tok SemicolonToken 35 35 36]
    [tok Identifier 29 30 31; type_ref 33 34 35].

Definition decl_v : Node :=
  typed VariableDeclaration 40 41 45 (type_ref 43 44 45)
    [tok ColonToken 42 42 43] [tok Identifier 40 41 42; type_ref 43 44 45].

Definition param_p : Node :=
  typed Parameter_ 14 14 18 (type_ref 16 17 18)
    [tok ColonToken 15 15 16] [tok Identifier 14 14 15; type_ref 16 17 18].

Definition fn_expr : Node :=
  mkNode FunctionExpression 1 1 48 false None [] None (Some (type_ref 20 21 22))
    (Some [mk TypeParameter 11 11 12 [tok Identifier 11 11 12]]) [param_p]
    [tok FunctionKeyword 1 1 9; tok LessThanToken 9 10 11;
     tok GreaterThanToken 12 12 13; tok OpenParenToken 13 13 14;
     tok CloseParenToken 18 18 19; tok ColonToken 19 19 20]
    [mk TypeParameter 11 11 12 [tok Identifier 11 11 12]; param_p;
     type_ref 20 21 22;
     mkt Block 22 23 48 [tok OpenBraceToken 22 23 24; tok CloseBraceToken 46 47 48]
       [alias_A;
        mkt VariableStatement 36 37 46 [tok SemicolonToken 45 45 46]
          [mkt VariableDeclarationList 36 37 45 [tok LetKeyword 36 37 40] [decl_v]]]].

Definition ast_cast_fn : Node :=
  mk SourceFile 0 0 55
    [mkt ExpressionStatement 0 0 55 [tok SemicolonToken 54 54 55]
       [as_expr 0 0 54
          (mkt ParenthesizedExpression 0 0 49
             [tok OpenParenToken 0 0 1; tok CloseParenToken 48 48 49] [fn_expr])
          (type_ref 52 53 54) [tok AsKeyword 49 50 52]];
     tok EndOfFileToken 55 55 55].

(** Positional well-formedness of a parsed tree: a node's tokens, declared
    type, parameters (with their tokens and types) and children lie inside
    its range [pos, end), and the children come in source order without
    overlapping. *)
Definition within (n c : Node) : bool := (pos n <=? pos c) && (end_ c <=? end_ n).

Definition opt_within (n : Node) (o : option Node) : bool :=
  match o with Some c => within n c | None => true end.

Fixpoint ordered (cs : list Node) : bool :=
  match cs with
  | [] => true
  | c :: cs' => forallb (fun d => end_ c <=? pos d) cs' && ordered cs'
  end.

Fixpoint wf (n : Node) : bool :=
  (pos n <=? start n) && (start n <=? end_ n)
  && forallb (within n) (tokens n)
  && opt_within n (type_ n)
  && forallb (fun p => within n p && forallb (within n) (tokens p)
                       && opt_within n (type_ p)) (parameters n)
  && forallb (within n) (children n)
  && ordered (children n)
  && (fix go (cs : list Node) : bool :=
        match cs with
        | [] => true
        | c :: cs' => wf c && go cs'
        end) (children n).




(** A method with a typed parameter: [class K { m(p: T) {} }] *)
Definition src_class : string := "class K { m(p: T) {} }".

Definition param_p_method : Node :=
  typed Parameter_ 12 12 16 (type_ref 14 15 16)
    [tok ColonToken 13 13 14] [tok Identifier 12 12 13; type_ref 14 15 16].

Definition method_m : Node :=
  mkNode MethodDeclaration 9 10 20 false None [] None None None [param_p_method]
    [tok OpenParenToken 11 11 12; tok CloseParenToken 16 16 17]
    [tok Identifier 9 10 11; param_p_method;
     mkt Block 17 18 20 [tok OpenBraceToken 17 18 19; tok CloseBraceToken 19 19 20] []].

Definition ast_class : Node :=
  mk SourceFile 0 0 22
    [mkt ClassDeclaration 0 0 22
       [tok ClassKeyword 0 0 5; tok OpenBraceToken 7 8 9; tok CloseBraceToken 20 21 22]
       [tok Identifier 5 6 7; method_m];
     tok EndOfFileToken 22 22 22].

(** Scenario 3:
    [function foo<T>(a: number): string { return String(a); }] *)
Definition src_foo : string :=
  "function foo<T>(a: number): string { return String(a); }".

Definition param_a : Node :=
  typed Parameter_ 16 16 25 (tok NumberKeyword 18 19 25)
    [tok ColonToken 17 17 18] [tok Identifier 16 16 17; tok NumberKeyword 18 19 25].

Definition fn_foo : Node :=
  mkNode FunctionDeclaration 0 0 56 false None [] None
    (Some (tok StringKeyword 27 28 34))
    (Some [mk TypeParameter 13 13 14 [tok Identifier 13 13 14]]) [param_a]
    [tok FunctionKeyword 0 0 8; tok LessThanToken 12 12 13;
     tok GreaterThanToken 14 14 15; tok OpenParenToken 15 15 16;
     tok CloseParenToken 25 25 26; tok ColonToken 26 26 27]
    [tok Identifier 8 9 12; mk TypeParameter 13 13 14 [tok Identifier 13 13 14];
     param_a; tok StringKeyword 27 28 34;
     mkt Block 34 35 56 [tok OpenBraceToken 34 35 36; tok CloseBraceToken 54 55 56]
       [mkt ReturnStatement 36 37 54
          [tok ReturnKeyword 36 37 43; tok SemicolonToken 53 53 54]
          [mkt CallExpression 43 44 53
             [tok OpenParenToken 50 50 51; tok CloseParenToken 52 52 53]
             [tok Identifier 43 44 50; tok Identifier 51 51 52]]]].

Definition ast_foo : Node :=
  mk SourceFile 0 0 56 [fn_foo; tok EndOfFileToken 56 56 56].

(** Scenario 4: [const b = "123" as number;] *)
Definition src_cast : string := ("const b = " ++ dq ++ "123" ++ dq ++ " as number;")%string.

Definition cast_123 : Node :=
  as_expr 9 10 25 (tok StringLiteral 9 10 15) (tok NumberKeyword 18 19 25)
    [tok AsKeyword 15 16 18].

Definition ast_cast : Node :=
  mk SourceFile 0 0 26
    [mkt VariableStatement 0 0 26 [tok SemicolonToken 25 25 26]
       [mkt VariableDeclarationList 0 0 25 [tok ConstKeyword 0 0 5]
          [mkt VariableDeclaration 5 6 25 [tok EqualsToken 7 8 9]
             [tok Identifier 5 6 7; cast_123]]];
     tok EndOfFileToken 26 26 26].

(** A chain of casts: [a as B as C;] *)
Definition src_cast_chain : string := "a as B as C;".

Definition inner_cast : Node :=
  as_expr 0 0 6 (tok Identifier 0 0 1) (type_ref 4 5 6) [tok AsKeyword 1 2 4].

Definition ast_cast_chain : Node :=
  mk SourceFile 0 0 12
    [mkt ExpressionStatement 0 0 12 [tok SemicolonToken 11 11 12]
       [as_expr 0 0 11 inner_cast (type_ref 9 10 11) [tok AsKeyword 6 7 9]];
     tok EndOfFileToken 12 12 12].

(** [<a p:q={x} />] with [<] at offset [o] and leading trivia from [p]:
    the attribute [p:q={x}] with the expression [x] of kind [xk]. *)
Definition jsx_element (p o : nat) (xk : SyntaxKind) : Node :=
  mkt JsxSelfClosingElement p o (o + 13)
    [tok LessThanToken o o (o + 1); tok SlashGreaterThanToken (o + 10) (o + 11) (o + 13)]
    [tok Identifier (o + 1) (o + 1) (o + 2);
     mk JsxAttributes (o + 2) (o + 3) (o + 10)
       [mkt JsxAttribute (o + 2) (o + 3) (o + 10) [tok EqualsToken (o + 6) (o + 6) (o + 7)]
          [mkt JsxNamespacedName (o + 2) (o + 3) (o + 6) [tok ColonToken (o + 4) (o + 4) (o + 5)]
             [tok Identifier (o + 2) (o + 3) (o + 4); tok Identifier (o + 5) (o + 5) (o + 6)];
           mkt JsxExpression (o + 7) (o + 7) (o + 10)
             [tok OpenBraceToken (o + 7) (o + 7) (o + 8);
              tok CloseBraceToken (o + 9) (o + 9) (o + 10)]
             [tok xk (o + 8) (o + 8) (o + 9)]]]].

(** Markup in a namespace: [namespace N { <a p:q={1} />; }] *)
Definition src_namespace_jsx : string := "namespace N { <a p:q={1} />; }".

Definition ast_namespace_jsx : Node :=
  mk SourceFile 0 0 30
    [mkt ModuleDeclaration 0 0 30 [tok NamespaceKeyword 0 0 9]
       [tok Identifier 9 10 11;
        mkt ModuleBlock 11 12 30
          [tok OpenBraceToken 11 12 13; tok CloseBraceToken 28 29 30]
          [mkt ExpressionStatement 13 14 28 [tok SemicolonToken 27 27 28]
             [jsx_element 13 14 NumericLiteral]]];
     tok EndOfFileToken 30 30 30].

(** Markup next to a typed parameter:
    [const f = (x: T) => <a p:q={x} />;] *)
Definition src_arrow_jsx : string := "const f = (x: T) => <a p:q={x} />;".

Definition param_x : Node :=
  typed Parameter_ 11 11 15 (type_ref 13 14 15)
    [tok ColonToken 12 12 13] [tok Identifier 11 11 12; type_ref 13 14 15].

Definition ast_arrow_jsx : Node :=
  mk SourceFile 0 0 34
    [mkt VariableStatement 0 0 34 [tok SemicolonToken 33 33 34]
       [mkt VariableDeclarationList 0 0 33 [tok ConstKeyword 0 0 5]
          [mkt VariableDeclaration 5 6 33 [tok EqualsToken 7 8 9]
             [tok Identifier 5 6 7;
              mkNode ArrowFunction 9 10 33 false None [] None None None [param_x]
                [tok OpenParenToken 9 10 11; tok CloseParenToken 15 15 16;
                 tok EqualsGreaterThanToken 16 17 19]
                [param_x; jsx_element 19 20 Identifier]]]];
     tok EndOfFileToken 34 34 34].

(** Export lists: [export { type A, B, C };] *)
Definition src_exports : string := "export { type A, B, C };".

Definition named_exp : Node :=
  named_list NamedExports 6 7 23
    [specifier ExportSpecifier 8 9 15 true [tok TypeKeyword 8 9 13] [tok Identifier 13 14 15];
     specifier ExportSpecifier 16 17 18 false [] [tok Identifier 16 17 18];
     specifier ExportSpecifier 19 20 21 false [] [tok Identifier 19 20 21]]
    [tok OpenBraceToken 6 7 8; tok CommaToken 15 15 16; tok CommaToken 18 18 19;
     tok CloseBraceToken 21 22 23].

Definition ast_exports : Node :=
  mk SourceFile 0 0 24
    [mkNode ExportDeclaration 0 0 24 false None [] None None None []
       [tok ExportKeyword 0 0 6; tok SemicolonToken 23 23 24] [named_exp];
     tok EndOfFileToken 24 24 24].

(** A value import with a comment in its list:
    [import { a /* c */ } from 'm';] *)
Definition src_commented_import : string := "import { a /* c */ } from 'm';".

Definition named_a_commented : Node :=
  named_list NamedImports 6 7 20
    [specifier ImportSpecifier 8 9 10 false [] [tok Identifier 8 9 10]]
    [tok OpenBraceToken 6 7 8; tok CloseBraceToken 10 19 20].

Definition ast_commented_import : Node :=
  mk SourceFile 0 0 30
    [import_decl 0 0 30 (import_clause 6 7 20 false [] [named_a_commented])
       (tok StringLiteral 25 26 29)
       [tok ImportKeyword 0 0 6; tok FromKeyword 20 21 25; tok SemicolonToken 29 29 30];
     tok EndOfFileToken 30 30 30].

(** A type alias after a comment: [x; /* c */ type T = A;] *)
Definition src_trivia : string := "x; /* c */ type T = A;".

Definition alias_T : Node :=
  mkt TypeAliasDeclaration 2 11 22
    [tok TypeKeyword 2 11 15; tok EqualsToken 17 18 19; tok SemicolonToken 21 21 22]
    [tok Identifier 15 16 17; type_ref 19 20 21].

Definition ast_trivia : Node :=
  mk SourceFile 0 0 22
    [mkt ExpressionStatement 0 0 2 [tok SemicolonToken 1 1 2] [tok Identifier 0 0 1];
     alias_T; tok EndOfFileToken 22 22 22].

(** Where an edit of the walk comes from.  [colon_edit o e]: [e] deletes
    from the first colon token among the own tokens of [o] through the end
    of the declared type of [o]. *)
Definition colon_edit (o : Node) (e : Edit) : Prop :=
  exists ty colon, type_ o = Some ty /\ find_token ColonToken o = Some colon
                   /\ e = overwrite (pos colon) (end_ ty) "".

(** An edit queued at [m] replaces the whole range of a node after which the
    walker returns, or is a [colon_edit] of a variable declaration, of a
    function-like node or of one of its parameters, or deletes a
    function-like node's type-parameter list from its [<] token through its
    [>] token. *)
Definition edit_origin (m : Node) (e : Edit) : Prop :=
  (returns_early m = true /\ ostart e = pos m /\ oend e = end_ m)
  \/ (kind m = VariableDeclaration /\ colon_edit m e)
  \/ (is_function_like m = true
      /\ (colon_edit m e
          \/ (exists p, In p (parameters m) /\ colon_edit p e)
          \/ (exists lt gt, find_token LessThanToken m = Some lt
                            /\ find_token GreaterThanToken m = Some gt
                            /\ e = overwrite (pos lt) (end_ gt) ""))).

(** Markup nodes: elements, attribute lists, attributes, namespaced names
    and embedded expressions. *)
Definition is_jsx (n : Node) : bool :=
  is_kind JsxSelfClosingElement n || is_kind JsxAttributes n
  || is_kind JsxAttribute n || is_kind JsxNamespacedName n
  || is_kind JsxExpression n.

(** ** [normalize] (lines 121-123 of [src/index.ts]) *)

(** A JavaScript string is a sequence of UTF-16 code units; the regular
    expression [/\s+/g] (without the [u] flag) and [trim()] read it code
    unit by code unit. *)
Definition jsstring : Type := list N.

(** The code units matched by [\s] and removed by [trim()]: the
    ECMAScript WhiteSpace and LineTerminator characters, that is tab, line
    feed, vertical tab, form feed, carriage return (9-13), space (0x20),
    no-break space (0xA0), ogham space mark (0x1680), the spaces
    0x2000-0x200A, line and paragraph separators (0x2028, 0x2029), narrow
    no-break space (0x202F), medium mathematical space (0x205F),
    ideographic space (0x3000) and the byte order mark (0xFEFF). *)
Definition is_ws (c : N) : bool :=
  ((9 <=? c) && (c <=? 13))%N || (c =? 32)%N || (c =? 160)%N
  || (c =? 5760)%N || ((8192 <=? c) && (c <=? 8202))%N
  || (c =? 8232)%N || (c =? 8233)%N || (c =? 8239)%N || (c =? 8287)%N
  || (c =? 12288)%N || (c =? 65279)%N.

(** [str.replace(/\s+/g, " ")]: each maximal run of whitespace becomes a
    single space (code unit 32); [in_run] tells whether the previous code
    unit was whitespace, so already replaced. *)
Fixpoint replace_ws (in_run : bool) (s : jsstring) : jsstring :=
  match s with
  | [] => []
  | c :: s' =>
      if is_ws c then
        if in_run then replace_ws true s' else 32%N :: replace_ws true s'
      else c :: replace_ws false s'
  end.

(** [trim()]: leading whitespace, then trailing whitespace, removed. *)
Fixpoint trim_start (s : jsstring) : jsstring :=
  match s with
  | [] => []
  | c :: s' => if is_ws c then trim_start s' else s
  end.

Fixpoint trim_end (s : jsstring) : jsstring :=
  match s with
  | [] => []
  | c :: s' =>
      let r := trim_end s' in
      if is_ws c then match r with [] => [] | _ => c :: r end
      else c :: r
  end.

Definition trim (s : jsstring) : jsstring := trim_end (trim_start s).

Definition normalize (str : jsstring) : jsstring := trim (replace_ws false str).

(** Whether every code unit of [s] is whitespace. *)
Fixpoint all_ws (s : jsstring) : bool :=
  match s with
  | [] => true
  | c :: s' => is_ws c && all_ws s'
  end.

(** The non-whitespace runs of a string, joined by single spaces, in one
    left-to-right pass: [started] tells whether a non-whitespace code unit
    has been written, [pend] whether whitespace has been read since the
    last one. *)
Fixpoint words_joined (started pend : bool) (s : jsstring) : jsstring :=
  match s with
  | [] => []
  | c :: s' =>
      if is_ws c then words_joined started started s'
      else if pend then 32%N :: c :: words_joined true false s'
      else c :: words_joined true false s'
  end.

(** * Proofs *)

Example scenario2 : transform src_const ast_const = "const a = 123;"%string.
Proof. vm_compute. reflexivity. Qed.

(** ** Structure of the walk *)

Lemma walk_eq (src : string) (n : Node) :
  walk src n =
  local_edits src n
  ++ (if returns_early n then [] else flat_map (walk src) (children n)).
Proof.
  destruct n as [k p s e t ic el ex ty tp ps tk ch].
  unfold local_edits, returns_early; cbn [walk children].
  assert (Hfe : (fix forEachChild (cs : list Node) : list Edit :=
                   match cs with
                   | [] => []
                   | c :: cs' => walk src c ++ forEachChild cs'
                   end) ch = flat_map (walk src) ch).
  { induction ch as [|c ch IH]; [reflexivity|]. simpl. now rewrite IH. }
  rewrite Hfe.
  destruct (is_kind ImportDeclaration _ && importClause_isTypeOnly _); [reflexivity|].
  destruct (is_kind NamedImports _); [reflexivity|].
  destruct (is_kind ExportDeclaration _ && isTypeOnly _); [reflexivity|].
  destruct (is_kind NamedExports _); [reflexivity|].
  destruct (is_kind AsExpression _); [reflexivity|].
  destruct (is_declaration_erased _); [reflexivity|].
  simpl. now rewrite app_assoc.
Qed.

Lemma visited_eq (n : Node) :
  visited n =
  n :: (if returns_early n then [] else flat_map visited (children n)).
Proof.
  destruct n as [k p s e t ic el ex ty tp ps tk ch]. cbn [visited children].
  reflexivity.
Qed.

(** Every edit queued at a visited node is in the result of the walk. *)
Lemma visited_local_edits (src : string) (n : Node) :
  forall m e, In m (visited n) -> In e (local_edits src m) -> In e (walk src n).
Proof.
  induction n as [n IH] using Node_children_ind.
  intros m e Hm He. rewrite visited_eq in Hm. rewrite walk_eq.
  destruct Hm as [<- | Hm].
  - apply in_or_app. now left.
  - apply in_or_app. right.
    destruct (returns_early n); [destruct Hm|].
    apply in_flat_map in Hm as [c [Hc Hm]].
    apply in_flat_map. exists c. split; [exact Hc|]. exact (IH c Hc m e Hm He).
Qed.

(** Every edit of the walk is queued at some visited node. *)
Lemma walk_provenance (src : string) (n : Node) :
  forall e, In e (walk src n) ->
  exists m, In m (visited n) /\ In e (local_edits src m).
Proof.
  induction n as [n IH] using Node_children_ind.
  intros e He. rewrite walk_eq in He. apply in_app_or in He as [He | He].
  - exists n. split; [rewrite visited_eq; now left | exact He].
  - destruct (returns_early n) eqn:Hr; [destruct He|].
    apply in_flat_map in He as [c [Hc He]].
    destruct (IH c Hc e He) as [m [Hm Hl]].
    exists m. split; [|exact Hl].
    rewrite visited_eq, Hr. right. apply in_flat_map. now exists c.
Qed.

(** ** Rendering keeps exactly the bytes outside the overwritten ranges *)

Lemma covered_spec (es : list Edit) (p : nat) :
  covered es p = true <-> exists e, In e es /\ ostart e <= p < oend e.
Proof.
  unfold covered. rewrite existsb_exists. split.
  - intros [e [He Hb]]. apply andb_true_iff in Hb as [H1 H2].
    apply Nat.leb_le in H1. apply Nat.ltb_lt in H2. eauto.
  - intros [e [He [H1 H2]]]. exists e. split; [exact He|].
    apply andb_true_iff. split; [now apply Nat.leb_le | now apply Nat.ltb_lt].
Qed.

Lemma pairwise_disjoint_spec (es : list Edit) :
  pairwise_disjoint es = true ->
  forall e1 e2, In e1 es -> In e2 es ->
  e1 = e2 \/ oend e1 <= ostart e2 \/ oend e2 <= ostart e1.
Proof.
  induction es as [|e es IH]; simpl; [tauto|].
  intros Hd e1 e2 H1 H2. apply andb_true_iff in Hd as [Hall Hd].
  rewrite forallb_forall in Hall.
  assert (Hsym : forall x, In x es -> oend e <= ostart x \/ oend x <= ostart e).
  { intros x Hx. specialize (Hall x Hx). unfold disjoint in Hall.
    apply orb_true_iff in Hall as [H | H]; apply Nat.leb_le in H; tauto. }
  destruct H1 as [<- | H1], H2 as [<- | H2].
  - now left.
  - right. specialize (Hsym e2 H2). tauto.
  - right. specialize (Hsym e1 H1). tauto.
  - exact (IH Hd e1 e2 H1 H2).
Qed.

Lemma edits_ok_inv (len : nat) (es : list Edit) :
  edits_ok len es = true ->
  (forall e, In e es -> ostart e < oend e <= len) /\ pairwise_disjoint es = true.
Proof.
  unfold edits_ok. intros H. apply andb_true_iff in H as [Hok Hd].
  split; [|exact Hd]. intros e He. rewrite forallb_forall in Hok.
  specialize (Hok e He). unfold edit_ok in Hok.
  apply andb_true_iff in Hok as [H1 H2].
  apply Nat.ltb_lt in H1. apply Nat.leb_le in H2. lia.
Qed.

Section Trace.
Variable len : nat.
Variable es : list Edit.
Hypothesis Hbounds : forall e, In e es -> ostart e < oend e <= len.
Hypothesis Hdisj : pairwise_disjoint es = true.

Lemma trace_from_orig :
  forall fuel i, len < i + fuel -> not_inside es i ->
  forall p, In (Orig p) (trace_from len es fuel i) <->
            i <= p < len /\ covered es p = false.
Proof.
  induction fuel as [|f IH]; intros i Hf Hi p; cbn [trace_from].
  - split; [intros []|]. intros [Hp _]. lia.
  - destruct (len <=? i) eqn:Hl.
    + apply Nat.leb_le in Hl. split; [intros []|]. intros [Hp _]. lia.
    + apply Nat.leb_gt in Hl. unfold edit_at.
      destruct (find (fun e => Nat.eqb (ostart e) i) es) as [e|] eqn:Hfind.
      * apply find_some in Hfind as [He Hs]. apply Nat.eqb_eq in Hs.
        pose proof (Hbounds e He) as Hb.
        assert (Hni : not_inside es (oend e)).
        { intros e' He' Hin.
          destruct (pairwise_disjoint_spec es Hdisj e e' He He')
            as [<- | [Hx | Hx]]; lia. }
        assert (Hcov : forall q, i <= q < oend e -> covered es q = true).
        { intros q Hq. apply covered_spec. exists e. split; [exact He|]. lia. }
        split.
        -- intros [Hx | Hx]; [discriminate|].
           apply (IH (oend e)) in Hx; [|lia|exact Hni].
           destruct Hx as [Hx1 Hx2]. split; [lia|exact Hx2].
        -- intros [Hp Hc]. right. apply (IH (oend e)); [lia|exact Hni|].
           split; [|exact Hc].
           destruct (Nat.lt_ge_cases p (oend e)) as [Hq|Hq]; [|lia].
           rewrite Hcov in Hc by lia. discriminate.
      * assert (Hnc : covered es i = false).
        { destruct (covered es i) eqn:Hc; [|reflexivity].
          apply covered_spec in Hc as [e [He Hr]].
          pose proof (find_none _ _ Hfind e He) as Hn. simpl in Hn.
          apply Nat.eqb_neq in Hn. exfalso. apply (Hi e He). lia. }
        assert (Hni : not_inside es (S i)).
        { intros e He Hr. pose proof (find_none _ _ Hfind e He) as Hn.
          simpl in Hn. apply Nat.eqb_neq in Hn. apply (Hi e He). lia. }
        split.
        -- intros [Hx | Hx].
           ++ injection Hx as <-. split; [lia|exact Hnc].
           ++ apply (IH (S i)) in Hx; [|lia|exact Hni].
              destruct Hx as [Hx1 Hx2]. split; [lia|exact Hx2].
        -- intros [Hp Hc].
           destruct (Nat.eq_dec p i) as [-> | Hne]; [now left|].
           right. apply (IH (S i)); [lia|exact Hni|]. split; [lia|exact Hc].
Qed.
End Trace.

(** With well-formed edits, the rendering reproduces the original byte at
    [p] exactly when [p] is in the text and outside every overwritten
    range. *)
Lemma trace_orig (src : string) (es : list Edit) :
  edits_ok (length src) es = true ->
  forall p, In (Orig p) (trace src es) <->
            p < length src /\ covered es p = false.
Proof.
  intros Hok p. apply edits_ok_inv in Hok as [Hb Hd]. unfold trace.
  rewrite (trace_from_orig (length src) es Hb Hd); [| lia | intros e He Hr; lia].
  split; intros [H1 H2]; (split; [lia | exact H2]).
Qed.

(** ** C1: queued edits are pairwise disjoint *)

(** Claim C1 (code_bug).  The edits of one walk are meant to be pairwise
    disjoint, but a declared type is deleted from its colon through its end
    and the walker then still descends into that type: on
    [const x: { [a as b]: number } = 1;] it queues [overwrite(7, 29, "")]
    for the annotation and then [overwrite(12, 18, "a")] for the cast in the
    computed key, a range inside the first one. *)
Theorem walk_overlapping_edits :
  walk src_computed ast_computed = [overwrite 7 29 ""; overwrite 12 18 "a"]
  /\ pairwise_disjoint (walk src_computed ast_computed) = false.
Proof. split; vm_compute; reflexivity. Qed.

(** ** Helpers on trees and local edits *)

Lemma nodes_eq (n : Node) : nodes n = n :: flat_map nodes (children n).
Proof. destruct n. reflexivity. Qed.

Lemma descend_in_nodes (n : Node) (path : list nat) (m : Node) :
  descend n path = Some m -> In m (nodes n).
Proof.
  revert n. induction path as [|i path IH]; intros n H; simpl in H.
  - injection H as <-. rewrite nodes_eq. now left.
  - destruct (nth_error (children n) i) as [c|] eqn:Hc; [|discriminate].
    rewrite nodes_eq. right. apply in_flat_map. exists c.
    split; [exact (nth_error_In _ _ Hc) | exact (IH c H)].
Qed.

Lemma local_edits_erased (src : string) (m : Node) :
  erased_whole m = true -> local_edits src m = [overwrite (pos m) (end_ m) ""].
Proof.
  unfold erased_whole, local_edits, is_declaration_erased, is_kind.
  destruct (kind m); cbn; try discriminate; intros H;
    rewrite ?H, ?orb_true_r; try reflexivity.
  - destruct (importClause_isTypeOnly m); [reflexivity | discriminate].
  - destruct (isTypeOnly m); [reflexivity | discriminate].
Qed.

Lemma covered_in (es : list Edit) (e : Edit) (p : nat) :
  In e es -> ostart e <= p < oend e -> covered es p = true.
Proof. intros He Hp. apply covered_spec. eauto. Qed.

Lemma deleted_range_not_rendered (src : string) (es : list Edit) (e : Edit) :
  edits_ok (length src) es = true -> In e es ->
  forall p, ostart e <= p < oend e -> ~ In (Orig p) (trace src es).
Proof.
  intros Hok He p Hp Hin. apply (trace_orig src es Hok) in Hin as [_ Hc].
  rewrite (covered_in es e p He Hp) in Hc. discriminate.
Qed.

(** ** C2: type-only declarations are deleted whole *)

(** Claim C2 (corrected).  A type-only import or export declaration, type
    alias, interface, enum or module declaration that the walker reaches
    has its whole range [pos, end) overwritten with the empty string, and
    with well-formed edits none of its bytes is rendered.  The walker does
    not reach declarations inside a node it replaces wholesale, such as the
    operand of an [as] cast, whose text is copied verbatim. *)
Theorem type_only_declaration_deleted (src : string) (root m : Node)
  (Hm : In m (visited root)) (He : erased_whole m = true) :
  In (overwrite (pos m) (end_ m) "") (walk src root)
  /\ (edits_ok (length src) (walk src root) = true ->
      forall p, pos m <= p < end_ m -> ~ In (Orig p) (trace src (walk src root))).
Proof.
  assert (Hin : In (overwrite (pos m) (end_ m) "") (walk src root)).
  { apply (visited_local_edits src root m); [exact Hm|].
    rewrite (local_edits_erased src m He). now left. }
  split; [exact Hin|].
  intros Hok p Hp. exact (deleted_range_not_rendered src _ _ Hok Hin p Hp).
Qed.

Lemma type_only_declaration_deleted_witness :
  In import_type_foo (visited ast_imports)
  /\ erased_whole import_type_foo = true
  /\ In (overwrite 0 33 "") (walk src_imports ast_imports)
  /\ (edits_ok (length src_imports) (walk src_imports ast_imports) = true ->
      forall p, 0 <= p < 33 ->
      ~ In (Orig p) (trace src_imports (walk src_imports ast_imports))).
Proof.
  assert (Hm : In import_type_foo (visited ast_imports)).
  { apply nth_error_In with 1. vm_compute. reflexivity. }
  assert (He : erased_whole import_type_foo = true) by reflexivity.
  split; [exact Hm|]. split; [exact He|].
  exact (type_only_declaration_deleted src_imports ast_imports import_type_foo Hm He).
Defined.

(** A type alias inside the operand of a cast is in the tree, but no
    overwrite deletes it: the cast is replaced by the operand's original
    text, alias included. *)
Lemma cast_operand_keeps_type_alias :
  In alias_A (nodes ast_cast_fn)
  /\ erased_whole alias_A = true
  /\ ~ In (overwrite (pos alias_A) (end_ alias_A) "") (walk src_cast_fn ast_cast_fn)
  /\ transform src_cast_fn ast_cast_fn
     = "(function <G>(p: P): R { type A = B; let v: T; });"%string.
Proof.
  split; [apply (descend_in_nodes ast_cast_fn [0;0;0;0;3;0]); reflexivity|].
  split; [reflexivity|]. split.
  - intros H. vm_compute in H. destruct H as [H | []]. discriminate H.
  - vm_compute. reflexivity.
Qed.

(** ** Positional well-formedness: edits stay inside the walked node *)

Lemma within_spec (n c : Node) :
  within n c = true <-> pos n <= pos c /\ end_ c <= end_ n.
Proof.
  unfold within. rewrite andb_true_iff, Nat.leb_le, Nat.leb_le. tauto.
Qed.

Lemma wf_inv (n : Node) :
  wf n = true ->
  pos n <= start n <= end_ n
  /\ (forall t, In t (tokens n) -> within n t = true)
  /\ opt_within n (type_ n) = true
  /\ (forall p, In p (parameters n) ->
        within n p = true /\ (forall t, In t (tokens p) -> within n t = true)
        /\ opt_within n (type_ p) = true)
  /\ (forall c, In c (children n) -> within n c = true /\ wf c = true)
  /\ ordered (children n) = true.
Proof.
  destruct n as [k p s e t ic el ex ty tp ps tk ch]. cbn [wf].
  cbn [pos start end_ tokens type_ parameters children].
  repeat rewrite andb_true_iff.
  intros [[[[[[[H1 H2] H3] H4] H5] H6] H7] H8].
  apply Nat.leb_le in H1. apply Nat.leb_le in H2.
  rewrite forallb_forall in H3, H5, H6.
  split; [lia|]. split; [exact H3|]. split; [exact H4|]. split.
  - intros p0 Hp0. apply H5 in Hp0.
    apply andb_true_iff in Hp0 as [Hp0 Hpt]. apply andb_true_iff in Hp0 as [Hpw Hpk].
    rewrite forallb_forall in Hpk. auto.
  - split; [|exact H7]. intros c Hc. split; [exact (H6 c Hc)|].
    clear -H8 Hc. induction ch as [|c0 ch IH]; [destruct Hc|].
    apply andb_true_iff in H8 as [Hc0 Hr]. destruct Hc as [<- | Hc]; auto.
Qed.

Lemma find_token_in (k : SyntaxKind) (n t : Node) :
  find_token k n = Some t -> In t (tokens n).
Proof. unfold find_token. intros H. now apply find_some in H as [H _]. Qed.

Ltac within_facts :=
  repeat match goal with
  | H : within _ _ = true |- _ => apply within_spec in H as [? ?]
  | H : opt_within _ (Some _) = true |- _ => cbn [opt_within] in H
  end.

Lemma local_edits_within (src : string) (n : Node) :
  wf n = true ->
  forall e, In e (local_edits src n) -> pos n <= ostart e /\ oend e <= end_ n.
Proof.
  intros Hwf. destruct (wf_inv n Hwf) as [Hse [Htok [Hty [Hps _]]]].
  assert (Hwhole : forall e c, In e [overwrite (pos n) (end_ n) c] ->
                     pos n <= ostart e /\ oend e <= end_ n) by
    (intros e c [<- | []]; simpl; lia).
  intros e He. unfold local_edits in He.
  repeat match type of He with
  | In _ (if ?b then _ else _) => destruct b; [exact (Hwhole _ _ He)|]
  end.
  apply in_app_or in He as [He | He].
  - unfold variable_edits in He.
    destruct (is_kind VariableDeclaration n); [|destruct He].
    destruct (type_ n) as [ty|] eqn:Ht; [|destruct He].
    destruct (find_token ColonToken n) as [colon|] eqn:Hc; [|destruct He].
    destruct He as [<- | []]. simpl.
    apply find_token_in, Htok in Hc. within_facts. lia.
  - unfold function_edits in He. destruct (is_function_like n); [|destruct He].
    apply in_app_or in He as [He | He]; [|apply in_app_or in He as [He | He]].
    + destruct (typeParameters n) as [[|? ?]|]; try destruct He.
      destruct (find_token LessThanToken n) as [lt|] eqn:Hl; [|destruct He].
      destruct (find_token GreaterThanToken n) as [gt|] eqn:Hg; [|destruct He].
      destruct He as [<- | []]. simpl.
      apply find_token_in, Htok in Hl. apply find_token_in, Htok in Hg.
      within_facts. lia.
    + destruct (type_ n) as [ty|] eqn:Ht; [|destruct He].
      destruct (find_token ColonToken n) as [colon|] eqn:Hc; [|destruct He].
      destruct He as [<- | []]. simpl.
      apply find_token_in, Htok in Hc. within_facts. lia.
    + apply in_flat_map in He as [p [Hp He]].
      destruct (Hps p Hp) as [_ [Hpt Hpty]].
      unfold parameter_edits in He.
      destruct (type_ p) as [ty|] eqn:Ht; [|destruct He].
      destruct (find_token ColonToken p) as [colon|] eqn:Hc; [|destruct He].
      destruct He as [<- | []]. simpl.
      apply find_token_in, Hpt in Hc. within_facts. lia.
Qed.

Lemma walk_within (src : string) (n : Node) :
  wf n = true ->
  forall e, In e (walk src n) -> pos n <= ostart e /\ oend e <= end_ n.
Proof.
  induction n as [n IH] using Node_children_ind.
  intros Hwf e He. rewrite walk_eq in He. apply in_app_or in He as [He | He].
  - exact (local_edits_within src n Hwf e He).
  - destruct (returns_early n); [destruct He|].
    apply in_flat_map in He as [c [Hc He]].
    destruct (wf_inv n Hwf) as [_ [_ [_ [_ [Hch _]]]]].
    destruct (Hch c Hc) as [Hw Hwc]. apply within_spec in Hw.
    destruct (IH c Hc Hwc e He). lia.
Qed.

Lemma ordered_spec (cs : list Node) :
  ordered cs = true ->
  forall x y, In x cs -> In y cs ->
  x = y \/ end_ x <= pos y \/ end_ y <= pos x.
Proof.
  induction cs as [|c cs IH]; simpl; [tauto|].
  intros Ho x y Hx Hy. apply andb_true_iff in Ho as [Hall Ho].
  rewrite forallb_forall in Hall.
  destruct Hx as [<- | Hx], Hy as [<- | Hy].
  - now left.
  - right. left. apply Nat.leb_le. exact (Hall y Hy).
  - right. right. apply Nat.leb_le. exact (Hall x Hx).
  - exact (IH Ho x y Hx Hy).
Qed.

Lemma covered_flat_map (f : Node -> list Edit) (cs : list Node) (p : nat) :
  (forall c, In c cs -> covered (f c) p = false) ->
  covered (flat_map f cs) p = false.
Proof.
  intros H. destruct (covered (flat_map f cs) p) eqn:Hc; [|reflexivity].
  apply covered_spec in Hc as [e [He Hp]].
  apply in_flat_map in He as [c [Hc He]].
  specialize (H c Hc). rewrite (covered_in (f c) e p He Hp) in H. discriminate.
Qed.

(** Positions outside a well-formed node are not overwritten by its walk. *)
Lemma walk_outside_uncovered (src : string) (n : Node) (p : nat) :
  wf n = true -> p < pos n \/ end_ n <= p -> covered (walk src n) p = false.
Proof.
  intros Hwf Hp. destruct (covered (walk src n) p) eqn:Hc; [|reflexivity].
  apply covered_spec in Hc as [e [He Hr]].
  destruct (walk_within src n Hwf e He). lia.
Qed.


Lemma source_file_quiet (src : string) (n : Node) :
  kind n = SourceFile -> local_edits src n = [] /\ returns_early n = false.
Proof.
  intros Hk. unfold local_edits, returns_early, variable_edits, function_edits,
    is_function_like, is_declaration_erased, is_kind.
  rewrite Hk. split; reflexivity.
Qed.



(** ** C3: named-import lists (helpers, and a list the walker does not reach) *)


(** ** C4: generics, return types and parameter types of functions *)

Lemma local_edits_function (src : string) (f : Node) :
  is_function_like f = true -> local_edits src f = function_edits f.
Proof.
  unfold is_function_like, local_edits, variable_edits, is_declaration_erased,
    is_kind.
  destruct (kind f); cbn; try discriminate; reflexivity.
Qed.

(** Claim C4 (corrected).  For every function declaration, function
    expression or arrow function the walker reaches: with a non-empty
    type-parameter list, the range from the first [<] token through the
    first [>] token among its own tokens is deleted; with a declared return
    type, the range from its first own colon token through the end of that
    type; and for each parameter with a declared type, the range from the
    parameter's first own colon token through the end of its type.  Methods
    (and other function-like nodes) are not handled, and functions inside
    the operand of an [as] cast are not reached. *)
Theorem function_annotations_deleted (src : string) (root f : Node)
  (Hf : In f (visited root)) (Hk : is_function_like f = true) :
  (forall tp tps lt gt, typeParameters f = Some (tp :: tps) ->
     find_token LessThanToken f = Some lt -> find_token GreaterThanToken f = Some gt ->
     In (overwrite (pos lt) (end_ gt) "") (walk src root))
  /\ (forall ty colon, type_ f = Some ty -> find_token ColonToken f = Some colon ->
      In (overwrite (pos colon) (end_ ty) "") (walk src root))
  /\ (forall p ty colon, In p (parameters f) -> type_ p = Some ty ->
      find_token ColonToken p = Some colon ->
      In (overwrite (pos colon) (end_ ty) "") (walk src root)).
Proof.
  assert (Hl : forall e, In e (function_edits f) -> In e (walk src root)).
  { intros e He. apply (visited_local_edits src root f); [exact Hf|].
    now rewrite (local_edits_function src f Hk). }
  unfold function_edits in Hl. rewrite Hk in Hl.
  split; [|split].
  - intros tp tps lt gt Htp Hlt Hgt. apply Hl.
    rewrite Htp, Hlt, Hgt. simpl. now left.
  - intros ty colon Hty Hc. apply Hl. apply in_or_app. right.
    rewrite Hty, Hc. simpl. now left.
  - intros p ty colon Hp Hty Hc. apply Hl. apply in_or_app. right.
    apply in_or_app. right. apply in_flat_map. exists p. split; [exact Hp|].
    unfold parameter_edits. rewrite Hty, Hc. now left.
Qed.

(** Scenario 3: on [function foo<T>(a: number): string {...}] the three
    annotations are deleted, and the rendered text is
    [function foo(a) { return String(a); }]. *)
Lemma function_annotations_deleted_witness :
  In (overwrite 12 15 "") (walk src_foo ast_foo)
  /\ In (overwrite 26 34 "") (walk src_foo ast_foo)
  /\ In (overwrite 17 25 "") (walk src_foo ast_foo)
  /\ transform src_foo ast_foo = "function foo(a) { return String(a); }"%string.
Proof.
  assert (Hf : In fn_foo (visited ast_foo)).
  { apply nth_error_In with 1. vm_compute. reflexivity. }
  destruct (function_annotations_deleted src_foo ast_foo fn_foo Hf eq_refl)
    as [H1 [H2 H3]].
  split; [|split; [|split]].
  - exact (H1 _ _ _ _ eq_refl eq_refl eq_refl).
  - exact (H2 _ _ eq_refl eq_refl).
  - exact (H3 param_a _ _ (or_introl eq_refl) eq_refl eq_refl).
  - vm_compute. reflexivity.
Defined.

(** Two functions whose annotations are not deleted: a method, whose kind
    the walker does not test, and a function expression inside the operand
    of a cast, which the walker does not reach. *)
Lemma method_and_cast_operand_keep_annotations :
  In method_m (nodes ast_class) /\ In param_p_method (parameters method_m)
  /\ walk src_class ast_class = []
  /\ transform src_class ast_class = src_class
  /\ In fn_expr (nodes ast_cast_fn) /\ is_function_like fn_expr = true
  /\ In param_p (parameters fn_expr)
  /\ ~ In (overwrite 15 18 "") (walk src_cast_fn ast_cast_fn).
Proof.
  split; [apply (descend_in_nodes ast_class [0;1]); reflexivity|].
  split; [now left|].
  split; [vm_compute; reflexivity|].
  split; [vm_compute; reflexivity|].
  split; [apply (descend_in_nodes ast_cast_fn [0;0;0;0]); reflexivity|].
  split; [reflexivity|].
  split; [now left|].
  intros H. vm_compute in H. destruct H as [H | []]. discriminate H.
Qed.

(** ** C5: variable type annotations *)

Lemma local_edits_variable (src : string) (d : Node) :
  kind d = VariableDeclaration -> local_edits src d = variable_edits d.
Proof.
  intros Hk. unfold local_edits, function_edits, is_function_like,
    is_declaration_erased, is_kind.
  rewrite Hk. cbn. now rewrite app_nil_r.
Qed.

(** Claim C5 (corrected).  For every variable declarator with a declared
    type that the walker reaches, the only edit queued at the declarator
    deletes exactly the range from its colon token (from the colon's [pos],
    so with the trivia before the colon) through the end of the type; the
    name and the initializer are not part of it.  Declarators the walker
    does not reach (inside an [as] operand, or inside a deleted
    module/namespace) are not edited this way. *)
Theorem variable_annotation_deleted (src : string) (root d ty colon : Node)
  (Hd : In d (visited root)) (Hk : kind d = VariableDeclaration)
  (Hty : type_ d = Some ty) (Hc : find_token ColonToken d = Some colon) :
  local_edits src d = [overwrite (pos colon) (end_ ty) ""]
  /\ In (overwrite (pos colon) (end_ ty) "") (walk src root).
Proof.
  assert (Hl : local_edits src d = [overwrite (pos colon) (end_ ty) ""]).
  { rewrite (local_edits_variable src d Hk). unfold variable_edits, is_kind.
    rewrite Hk, Hty, Hc. reflexivity. }
  split; [exact Hl|].
  apply (visited_local_edits src root d); [exact Hd|]. rewrite Hl. now left.
Qed.

(** Scenario 2: [const a: number = 123;] becomes [const a = 123;]. *)
Lemma variable_annotation_deleted_witness :
  In (overwrite 7 15 "") (walk src_const ast_const)
  /\ transform src_const ast_const = "const a = 123;"%string.
Proof.
  assert (Hd : In decl_a (visited ast_const)).
  { apply nth_error_In with 3. vm_compute. reflexivity. }
  split.
  - exact (proj2 (variable_annotation_deleted src_const ast_const decl_a _ _ Hd
                    eq_refl eq_refl eq_refl)).
  - vm_compute. reflexivity.
Defined.

(** A typed declarator inside the operand of a cast keeps its annotation. *)
Lemma cast_operand_keeps_variable_annotation :
  In decl_v (nodes ast_cast_fn) /\ kind decl_v = VariableDeclaration
  /\ type_ decl_v = Some (type_ref 43 44 45)
  /\ ~ In (overwrite 42 45 "") (walk src_cast_fn ast_cast_fn)
  /\ substring 37 9 (transform src_cast_fn ast_cast_fn) = "let v: T;"%string.
Proof.
  split; [apply (descend_in_nodes ast_cast_fn [0;0;0;0;3;1;0;0]); reflexivity|].
  split; [reflexivity|]. split; [reflexivity|]. split.
  - intros H. vm_compute in H. destruct H as [H | []]. discriminate H.
  - vm_compute. reflexivity.
Qed.

(** ** C6: casts *)

(** Claim C6 (corrected).  Every [as] expression the walker reaches has its
    range [pos, end) (which starts with the trivia before the operand)
    overwritten with the operand's original text ([getText], from the
    operand's start), dropping [as T]; this is the only edit queued at the
    cast and the walker does not descend into it, so casts nested in the
    operand are copied verbatim with it. *)
Theorem cast_replaced_by_operand (src : string) (root x e : Node)
  (Hx : In x (visited root)) (Hk : kind x = AsExpression)
  (He : expression x = Some e) :
  local_edits src x = [overwrite (pos x) (end_ x) (getText src e)]
  /\ returns_early x = true
  /\ In (overwrite (pos x) (end_ x) (getText src e)) (walk src root).
Proof.
  assert (Hl : local_edits src x = [overwrite (pos x) (end_ x) (getText src e)]).
  { unfold local_edits, is_kind. rewrite Hk, He. reflexivity. }
  split; [exact Hl|]. split.
  - unfold returns_early, is_kind. rewrite Hk. reflexivity.
  - apply (visited_local_edits src root x); [exact Hx|]. rewrite Hl. now left.
Qed.

(** Scenario 4: [const b = "123" as number;] renders as [const b ="123";]. *)
Lemma cast_replaced_by_operand_witness :
  In (overwrite 9 25 (dq ++ "123" ++ dq)) (walk src_cast ast_cast)
  /\ transform src_cast ast_cast = ("const b =" ++ dq ++ "123" ++ dq ++ ";")%string.
Proof.
  assert (Hx : In cast_123 (visited ast_cast)).
  { apply nth_error_In with 5. vm_compute. reflexivity. }
  split.
  - exact (proj2 (proj2 (cast_replaced_by_operand src_cast ast_cast cast_123 _ Hx
                           eq_refl eq_refl))).
  - vm_compute. reflexivity.
Defined.

(** In [a as B as C;] the inner cast is in the tree but is not replaced by
    its operand: the outer cast is replaced by the text [a as B]. *)
Lemma nested_cast_kept :
  In inner_cast (nodes ast_cast_chain) /\ kind inner_cast = AsExpression
  /\ ~ In (overwrite 0 6 "a") (walk src_cast_chain ast_cast_chain)
  /\ transform src_cast_chain ast_cast_chain = "a as B;"%string.
Proof.
  split; [apply (descend_in_nodes ast_cast_chain [0;0;0]); reflexivity|].
  split; [reflexivity|]. split.
  - intros H. vm_compute in H. destruct H as [H | []]. discriminate H.
  - vm_compute. reflexivity.
Qed.

(** ** C7: colons in markup *)

Lemma is_kind_true (k : SyntaxKind) (n : Node) : is_kind k n = true -> kind n = k.
Proof.
  unfold is_kind, kind_eqb. destruct (SyntaxKind_eq_dec (kind n) k); [auto|discriminate].
Qed.

Lemma colon_edit_of (o : Node) (e : Edit) :
  In e (parameter_edits o) -> colon_edit o e.
Proof.
  unfold parameter_edits.
  destruct (type_ o) as [ty|] eqn:Ht; [|intros []].
  destruct (find_token ColonToken o) as [c|] eqn:Hc; [|intros []].
  intros [<- | []]. exists ty, c. auto.
Qed.

Ltac early_edit H :=
  intros [<- | []]; left; split;
  [unfold returns_early; rewrite H, ?orb_true_r; reflexivity | split; reflexivity].

(** Every edit queued at a node has one of the origins of [edit_origin]. *)
Lemma local_edit_origin (src : string) (m : Node) (e : Edit) :
  In e (local_edits src m) -> edit_origin m e.
Proof.
  unfold local_edits.
  destruct (is_kind ImportDeclaration m && importClause_isTypeOnly m) eqn:H1;
    [early_edit H1|].
  destruct (is_kind NamedImports m) eqn:H2; [early_edit H2|].
  destruct (is_kind ExportDeclaration m && isTypeOnly m) eqn:H3; [early_edit H3|].
  destruct (is_kind NamedExports m) eqn:H4; [early_edit H4|].
  destruct (is_kind AsExpression m) eqn:H5; [early_edit H5|].
  destruct (is_declaration_erased m) eqn:H6; [early_edit H6|].
  intros He. apply in_app_or in He as [He | He].
  - right; left. unfold variable_edits in He.
    destruct (is_kind VariableDeclaration m) eqn:Hv; [|destruct He].
    split; [exact (is_kind_true _ _ Hv)|]. exact (colon_edit_of m e He).
  - right; right. unfold function_edits in He.
    destruct (is_function_like m) eqn:Hf; [|destruct He].
    split; [reflexivity|].
    apply in_app_or in He as [He | He]; [|apply in_app_or in He as [He | He]].
    + right; right.
      destruct (typeParameters m) as [[|tp tps]|]; [destruct He| |destruct He].
      destruct (find_token LessThanToken m) as [lt|] eqn:Hlt; [|destruct He].
      destruct (find_token GreaterThanToken m) as [gt|] eqn:Hgt; [|destruct He].
      destruct He as [<- | []]. exists lt, gt. auto.
    + left. exact (colon_edit_of m e He).
    + right; left. apply in_flat_map in He as [p [Hp He]].
      exists p. split; [exact Hp | exact (colon_edit_of p e He)].
Qed.

(** Claim C7 (corrected).  The walker never derives an edit from markup:
    every edit it queues either replaces the whole range of a node after
    which it returns (type-only import or export, named import or export
    list, cast, type alias, interface, enum, module or namespace), or
    deletes from the first colon token among the own tokens of a variable
    declaration, function-like node or parameter through the end of that
    node's declared type, or deletes a function-like node's type-parameter
    list; markup nodes queue nothing and are descended into.  With
    well-formed edits, every byte outside the queued ranges, the colon of a
    namespaced attribute name included, is rendered verbatim.  An attribute
    name inside a range replaced wholesale (for example a deleted
    namespace) disappears with it. *)
Theorem markup_colon_safe (src : string) (root : Node) :
  (forall e, In e (walk src root) ->
     exists m, In m (visited root) /\ edit_origin m e)
  /\ (forall m, is_jsx m = true -> local_edits src m = [] /\ returns_early m = false)
  /\ (edits_ok (length src) (walk src root) = true ->
      forall p, p < length src -> covered (walk src root) p = false ->
      In (Orig p) (trace src (walk src root))).
Proof.
  split; [|split].
  - intros e He. destruct (walk_provenance src root e He) as [m [Hm Hl]].
    exists m. split; [exact Hm | exact (local_edit_origin src m e Hl)].
  - intros m. unfold is_jsx, local_edits, returns_early, variable_edits,
      function_edits, is_function_like, is_declaration_erased, is_kind.
    destruct (kind m); cbn; try discriminate; split; reflexivity.
  - intros Hok p Hp Hc. apply (trace_orig src _ Hok). split; assumption.
Qed.

(** In [const f = (x: T) => <a p:q={x} />;] the parameter annotation is
    deleted and the attribute name [p:q] (bytes 23 to 25) is rendered
    verbatim. *)
Lemma markup_colon_safe_witness :
  substring 23 3 src_arrow_jsx = "p:q"%string
  /\ In (Orig 23) (trace src_arrow_jsx (walk src_arrow_jsx ast_arrow_jsx))
  /\ In (Orig 24) (trace src_arrow_jsx (walk src_arrow_jsx ast_arrow_jsx))
  /\ In (Orig 25) (trace src_arrow_jsx (walk src_arrow_jsx ast_arrow_jsx))
  /\ transform src_arrow_jsx ast_arrow_jsx = "const f = (x) => <a p:q={x} />;"%string.
Proof.
  destruct (markup_colon_safe src_arrow_jsx ast_arrow_jsx) as [_ [_ Hkeep]].
  split; [reflexivity|].
  split; [|split; [|split]];
    [ apply Hkeep; [vm_compute; reflexivity | vm_compute; lia | vm_compute; reflexivity]
    | apply Hkeep; [vm_compute; reflexivity | vm_compute; lia | vm_compute; reflexivity]
    | apply Hkeep; [vm_compute; reflexivity | vm_compute; lia | vm_compute; reflexivity]
    | vm_compute; reflexivity ].
Defined.

(** Markup inside a namespace: [namespace N { <a p:q={1} />; }] contains
    the attribute name [p:q], and the output is empty, since the namespace
    is deleted whole. *)
Lemma markup_in_namespace_removed :
  (exists m, In m (nodes ast_namespace_jsx) /\ kind m = JsxNamespacedName
             /\ getText src_namespace_jsx m = "p:q"%string)
  /\ walk src_namespace_jsx ast_namespace_jsx = [overwrite 0 30 ""]
  /\ transform src_namespace_jsx ast_namespace_jsx = ""%string.
Proof.
  split.
  - eexists. split; [apply (descend_in_nodes ast_namespace_jsx [0;1;0;0;1;0;0]);
                     reflexivity|].
    split; reflexivity.
  - split; vm_compute; reflexivity.
Qed.

(** ** C8: named-export lists *)

Lemma string_app_assoc (a b c : string) : ((a ++ b) ++ c)%string = (a ++ b ++ c)%string.
Proof. induction a as [|x a IH]; simpl; [reflexivity | now rewrite IH]. Qed.

Lemma local_edits_named_exports (src : string) (n : Node) :
  kind n = NamedExports ->
  local_edits src n
  = [overwrite (pos n) (end_ n) (specifier_list src ", " (elements n))].
Proof. intros Hk. unfold local_edits, is_kind. now rewrite Hk. Qed.

(** Claim C8 (corrected).  Every named-export list the walker reaches has
    its range [pos, end) overwritten with ["{"], the original texts of its
    non-type-only specifiers in their order joined by [", "], and ["}"]: the
    same filtering as for named imports, with a space after each comma but
    none after the opening brace, which is followed directly by the first
    kept specifier's text. *)
Theorem named_exports_rewritten (src : string) (root ne : Node)
  (Hne : In ne (visited root)) (Hk : kind ne = NamedExports) :
  In (overwrite (pos ne) (end_ ne)
        ("{" ++ concat ", "
                 (map (getText src) (filter (fun e => negb (isTypeOnly e)) (elements ne)))
             ++ "}")) (walk src root)
  /\ (forall x xs, filter (fun e => negb (isTypeOnly e)) (elements ne) = x :: xs ->
      exists rest, specifier_list src ", " (elements ne)
                   = ("{" ++ getText src x ++ rest)%string).
Proof.
  split.
  - apply (visited_local_edits src root ne); [exact Hne|].
    rewrite (local_edits_named_exports src ne Hk). now left.
  - intros x xs Hf. unfold specifier_list. rewrite Hf. simpl map.
    destruct xs as [|y ys].
    + exists "}"%string. reflexivity.
    + exists (", " ++ concat ", " (map (getText src) (y :: ys)) ++ "}")%string.
      cbn [concat map]. rewrite string_app_assoc. reflexivity.
Qed.

(** [export { type A, B, C };]: the list is replaced by [{B, C}]. *)
Lemma named_exports_rewritten_witness :
  In (overwrite 6 23 "{B, C}") (walk src_exports ast_exports)
  /\ transform src_exports ast_exports = "export{B, C};"%string.
Proof.
  assert (Hm : In named_exp (visited ast_exports)).
  { apply nth_error_In with 2. vm_compute. reflexivity. }
  split.
  - exact (proj1 (named_exports_rewritten src_exports ast_exports named_exp Hm
                    eq_refl)).
  - vm_compute. reflexivity.
Defined.

(** The replacement of [{ type A, B, C }] is [{B, C}], with no space after
    the opening brace. *)
Lemma export_list_no_space_after_brace :
  walk src_exports ast_exports = [overwrite 6 23 "{B, C}"]
  /\ substring 0 2 (content (overwrite 6 23 "{B, C}")) = "{B"%string.
Proof. split; vm_compute; reflexivity. Qed.

(** ** C9: input without type syntax *)

Lemma trace_from_nil (len fuel i : nat) :
  len - i < fuel -> trace_from len [] fuel i = map Orig (seq i (len - i)).
Proof.
  revert i. induction fuel as [|f IH]; intros i Hf; [lia|].
  cbn [trace_from]. destruct (len <=? i) eqn:Hl.
  - apply Nat.leb_le in Hl. replace (len - i) with 0 by lia. reflexivity.
  - apply Nat.leb_gt in Hl. replace (len - i) with (S (len - S i)) by lia.
    simpl. f_equal. apply IH. lia.
Qed.

Lemma concat_empty_cons (x : string) (xs : list string) :
  concat "" (x :: xs) = (x ++ concat "" xs)%string.
Proof.
  destruct xs as [|y ys]; simpl; [|reflexivity].
  induction x as [|a x IH]; simpl; [reflexivity | now rewrite <- IH].
Qed.

Lemma concat_bytes (s : string) :
  concat "" (map (fun p => substring p 1 s) (seq 0 (length s))) = s.
Proof.
  induction s as [|a s IH]; [reflexivity|].
  cbn [length seq map]. rewrite <- seq_shift, map_map, concat_empty_cons.
  replace (map (fun p => substring (S p) 1 (String a s)) (seq 0 (length s)))
    with (map (fun p => substring p 1 s) (seq 0 (length s)))
    by (apply map_ext; reflexivity).
  rewrite IH. destruct s; reflexivity.
Qed.

Lemma toString_nil (src : string) : toString src [] = src.
Proof.
  unfold toString, trace. rewrite trace_from_nil by lia.
  rewrite map_map, Nat.sub_0_r. exact (concat_bytes src).
Qed.

(** Claim C9 (corrected).  When no node the walker reaches queues an edit
    (no type-only import or export, named import or export list, cast, type
    alias, interface, enum or module declaration, and no typed variable
    declaration, function or parameter), the walk queues nothing and the
    text handed to the formatter is the input, byte for byte; nodes of any
    other kind pass through silently.  Named import and export lists are
    always rewritten, even when no specifier is type-only, so comments
    inside their braces are lost. *)
Theorem untouched_input_unchanged (src : string) (root : Node)
  (Hq : forall m, In m (visited root) -> local_edits src m = []) :
  walk src root = [] /\ transform src root = src.
Proof.
  assert (Hw : walk src root = []).
  { destruct (walk src root) as [|e es] eqn:Hw; [reflexivity|].
    destruct (walk_provenance src root e) as [m [Hm Hl]];
      [rewrite Hw; now left|].
    rewrite (Hq m Hm) in Hl. destruct Hl. }
  split; [exact Hw|]. unfold transform. rewrite Hw. apply toString_nil.
Qed.

(** [class K { m(p: T) {} }] queues nothing and is handed to the formatter
    unchanged. *)
Lemma untouched_input_unchanged_witness :
  transform src_class ast_class = src_class.
Proof.
  assert (H : forallb (fun m => match local_edits src_class m with
                                | [] => true | _ => false end)
                (visited ast_class) = true) by (vm_compute; reflexivity).
  rewrite forallb_forall in H.
  apply (untouched_input_unchanged src_class ast_class).
  intros m Hm. specialize (H m Hm).
  destruct (local_edits src_class m); [reflexivity | discriminate].
Defined.

(** [import { a /* c */ } from 'm';] has no type syntax, but its list is
    rewritten to [{a}] and the comment is lost. *)
Lemma value_import_list_loses_comment :
  forallb isTypeOnly (elements named_a_commented) = false
  /\ walk src_commented_import ast_commented_import = [overwrite 6 20 "{a}"]
  /\ transform src_commented_import ast_commented_import
     = "import{a} from 'm';"%string.
Proof. split; [|split]; vm_compute; reflexivity. Qed.

(** ** MagicString's chunk chain: what the buffer renders *)

(** *** Chains of chunks *)

Lemma chain_le (a b : nat) (cs : list Chunk) : chain a cs b -> a <= b.
Proof.
  revert a. induction cs as [|c cs IH]; simpl; intros a H; [lia|].
  destruct H as [<- [H1 H2]]. specialize (IH _ H2). lia.
Qed.

Lemma chain_in (a b : nat) (cs : list Chunk) (c : Chunk) :
  chain a cs b -> In c cs -> a <= cstart c <= cend c /\ cend c <= b.
Proof.
  revert a. induction cs as [|c' cs IH]; simpl; intros a H Hc; [destruct Hc|].
  destruct H as [<- [H1 H2]]. destruct Hc as [<- | Hc].
  - pose proof (chain_le _ _ _ H2). lia.
  - destruct (IH _ H2 Hc). lia.
Qed.

Lemma chain_cover (a b p : nat) (cs : list Chunk) :
  chain a cs b -> a <= p < b -> exists c, In c cs /\ cstart c <= p < cend c.
Proof.
  revert a. induction cs as [|c cs IH]; simpl; intros a H Hp; [lia|].
  destruct H as [<- [H1 H2]].
  destruct (Nat.lt_ge_cases p (cend c)) as [Hlt | Hge].
  - exists c. split; [now left | lia].
  - destruct (IH _ H2 ltac:(lia)) as [c' [Hc' Hp']]. exists c'. split; [now right | exact Hp'].
Qed.

Lemma chain_unique (a b p : nat) (cs : list Chunk) (c1 c2 : Chunk) :
  chain a cs b -> In c1 cs -> In c2 cs ->
  cstart c1 <= p < cend c1 -> cstart c2 <= p < cend c2 -> c1 = c2.
Proof.
  revert a. induction cs as [|c cs IH]; simpl; intros a H H1 H2 Hp1 Hp2; [destruct H1|].
  destruct H as [<- [Hc Hr]].
  destruct H1 as [<- | H1], H2 as [<- | H2]; [reflexivity| | |exact (IH _ Hr H1 H2 Hp1 Hp2)].
  - destruct (chain_in _ _ _ _ Hr H2). lia.
  - destruct (chain_in _ _ _ _ Hr H1). lia.
Qed.

Lemma edited_at_in (cs : list Chunk) (p : nat) :
  edited_at cs p = true <->
  exists c, In c cs /\ cedited c = true /\ cstart c <= p < cend c.
Proof.
  unfold edited_at. rewrite existsb_exists. split.
  - intros [c [Hc Hb]]. repeat rewrite andb_true_iff in Hb.
    destruct Hb as [[He H1] H2]. apply Nat.leb_le in H1. apply Nat.ltb_lt in H2. eauto.
  - intros [c [Hc [He [H1 H2]]]]. exists c. split; [exact Hc|].
    rewrite He. apply Nat.leb_le in H1. apply Nat.ltb_lt in H2. now rewrite H1, H2.
Qed.

Lemma edited_at_chunk (a b p : nat) (cs : list Chunk) (c : Chunk) :
  chain a cs b -> In c cs -> cstart c <= p < cend c -> edited_at cs p = cedited c.
Proof.
  intros Hch Hc Hp. destruct (cedited c) eqn:He.
  - apply edited_at_in. eauto.
  - destruct (edited_at cs p) eqn:Ha; [|reflexivity].
    apply edited_at_in in Ha as [c' [Hc' [He' Hp']]].
    rewrite (chain_unique _ _ _ _ _ _ Hch Hc' Hc Hp' Hp) in He'. congruence.
Qed.

Lemma edited_at_outside (a b p : nat) (cs : list Chunk) :
  chain a cs b -> p < a \/ b <= p -> edited_at cs p = false.
Proof.
  intros Hch Hp. destruct (edited_at cs p) eqn:Ha; [|reflexivity].
  apply edited_at_in in Ha as [c [Hc [_ Hp']]].
  destruct (chain_in _ _ _ _ Hch Hc). lia.
Qed.

(** *** Slices of the text *)

Lemma substring_zero (a : nat) (s : string) : substring a 0 s = EmptyString.
Proof.
  revert s. induction a as [|a IH]; intros [|c s]; simpl; auto.
Qed.

Lemma substring_nil (i k : nat) : substring i k EmptyString = EmptyString.
Proof. destruct i, k; reflexivity. Qed.

Lemma substring_prefix (k n : nat) (s : string) :
  k <= n -> substring 0 k (substring 0 n s) = substring 0 k s.
Proof.
  revert n s. induction k as [|k IH]; intros n s Hk.
  - now rewrite !substring_zero.
  - destruct n as [|n]; [lia|]. destruct s as [|c s]; [reflexivity|].
    simpl. f_equal. apply IH. lia.
Qed.

Lemma substring_substring (a i k n : nat) (s : string) :
  i + k <= n -> substring i k (substring a n s) = substring (a + i) k s.
Proof.
  revert s. induction a as [|a IHa]; intros s Hk.
  - simpl. revert n s Hk. induction i as [|i IH]; intros n s Hk.
    + now apply substring_prefix.
    + destruct n as [|n]; [lia|]. destruct s as [|c s]; [reflexivity|].
      simpl. apply IH. lia.
  - destruct s as [|c s].
    + simpl. destruct i, k; reflexivity.
    + simpl. apply IHa. exact Hk.
Qed.

Lemma substring_length (n m : nat) (s : string) :
  n + m <= length s -> length (substring n m s) = m.
Proof.
  revert s. induction n as [|n IHn]; intros s H.
  - revert s H. induction m as [|m IH]; intros s H; [now rewrite substring_zero|].
    destruct s as [|c s]; simpl in H; [lia|]. simpl. f_equal. apply IH. lia.
  - destruct s as [|c s]; simpl in H; [lia|]. simpl. apply IHn. lia.
Qed.

Lemma substring_step (a n : nat) (s : string) :
  a < length s -> substring a (S n) s = (substring a 1 s ++ substring (S a) n s)%string.
Proof.
  revert s. induction a as [|a IH]; intros s H; destruct s as [|c s]; simpl in H; try lia.
  - simpl. rewrite substring_zero. reflexivity.
  - simpl. apply IH. lia.
Qed.

Lemma substring_bytes (s : string) (n a : nat) :
  a + n <= length s ->
  concat "" (map (fun p => substring p 1 s) (seq a n)) = substring a n s.
Proof.
  revert a. induction n as [|n IH]; intros a H.
  - simpl. now rewrite substring_zero.
  - cbn [seq map]. rewrite concat_empty_cons, IH by lia.
    symmetry. apply substring_step. lia.
Qed.

Lemma concat_empty_app (l1 l2 : list string) :
  concat "" (l1 ++ l2) = (concat "" l1 ++ concat "" l2)%string.
Proof.
  induction l1 as [|x l1 IH]; [reflexivity|].
  cbn [app]. rewrite !concat_empty_cons, IH. symmetry. apply string_app_assoc.
Qed.

Lemma ms_output (src : string) (a b : nat) (cs : list Chunk) :
  chain a cs b -> b <= length src -> content_ok src cs ->
  ms_toString cs = concat "" (map (emit src) (ms_pieces cs)).
Proof.
  unfold ms_toString, ms_pieces. revert a.
  induction cs as [|c cs IH]; intros a Hch Hb Hok; [reflexivity|].
  destruct Hch as [Ha [Hc Hch]]. pose proof (chain_le _ _ _ Hch) as Hle.
  cbn [map flat_map]. rewrite concat_empty_cons, map_app, concat_empty_app.
  rewrite (IH (cend c) Hch Hb) by (intros x Hx; apply Hok; now right).
  f_equal. unfold chunk_pieces. destruct (cedited c) eqn:He.
  - reflexivity.
  - rewrite map_map. cbn [emit]. rewrite substring_bytes by lia.
    apply Hok; [now left | exact He].
Qed.

(** *** Splitting *)

Ltac nat_bools :=
  repeat match goal with
  | |- context [?x <=? ?y] => destruct (Nat.leb_spec x y)
  | |- context [?x <? ?y] => destruct (Nat.ltb_spec x y)
  | |- context [?x =? ?y] => destruct (Nat.eqb_spec x y)
  end.


Lemma split_at_ok (i a b : nat) (cs : list Chunk) :
  chain a cs b ->
  (forall c, In c cs -> cstart c < i < cend c -> cedited c = true ->
             ccontent c = EmptyString) ->
  exists cs', split_at i cs = Some cs'
    /\ chain a cs' b
    /\ (forall p, edited_at cs' p = edited_at cs p)
    /\ (forall src, b <= length src -> content_ok src cs -> content_ok src cs')
    /\ (forall done, origin_ok done cs -> origin_ok done cs')
    /\ nocut i cs'
    /\ (forall j, nocut j cs -> nocut j cs').
Proof.
  revert a. induction cs as [|c cs IH]; intros a Hch Hok.
  - exists []. simpl in Hch |- *. repeat split; auto.
    all: try (intros ? []).
    all: try (intros ? ? ? []).
  - destruct Hch as [Ha [Hc Hch]]. pose proof (chain_le _ _ _ Hch) as Hle.
    cbn [split_at].
    destruct ((cstart c <? i) && (i <? cend c)) eqn:Hin.
    + apply andb_true_iff in Hin as [H1 H2].
      apply Nat.ltb_lt in H1. apply Nat.ltb_lt in H2.
      assert (Hne : cedited c && (0 <? length (ccontent c)) = false).
      { destruct (cedited c) eqn:He; [|reflexivity].
        rewrite (Hok c (or_introl eq_refl) (conj H1 H2) He). reflexivity. }
      rewrite Hne.
      set (c1 := mkChunk (cstart c) i (if cedited c then "" else substring 0 (i - cstart c) (ccontent c)) (cedited c)).
      set (c2 := mkChunk i (cend c) (if cedited c then "" else substring (i - cstart c) (length (ccontent c) - (i - cstart c)) (ccontent c)) (cedited c)).
      assert (Hsp : split_chunk c i ++ cs = c1 :: c2 :: cs).
      { unfold split_chunk, c1, c2. destruct (cedited c); reflexivity. }
      rewrite Hsp. exists (c1 :: c2 :: cs).
      split; [reflexivity|].
      split; [simpl; repeat split; auto; lia|].
      split.
      { intros p. unfold edited_at. cbn [existsb]. rewrite orb_assoc. f_equal.
        unfold c1, c2. cbn [cedited cstart cend].
        destruct (cedited c); simpl; [|reflexivity].
        nat_bools; simpl; first [reflexivity | lia]. }
      split.
      { intros src Hb Hco x Hx Hxe.
        assert (Hcc : cedited c = false ->
                      ccontent c = substring (cstart c) (cend c - cstart c) src)
          by (intros Hf; apply Hco; [now left | exact Hf]).
        destruct Hx as [<- | [<- | Hx]].
        - simpl in Hxe. unfold c1. rewrite Hxe. simpl. rewrite (Hcc Hxe).
          rewrite substring_substring by lia. f_equal; lia.
        - simpl in Hxe. unfold c2. rewrite Hxe. simpl. rewrite (Hcc Hxe).
          rewrite substring_length by lia.
          rewrite substring_substring by lia. f_equal; lia.
        - apply Hco; [now right | exact Hxe]. }
      split.
      { intros done Hor x Hx Hxe Hxc.
        destruct Hx as [<- | [<- | Hx]].
        - exfalso. simpl in Hxe, Hxc. rewrite Hxe in Hxc. exact (Hxc eq_refl).
        - exfalso. simpl in Hxe, Hxc. rewrite Hxe in Hxc. exact (Hxc eq_refl).
        - apply Hor; [now right | exact Hxe | exact Hxc]. }
      split.
      { intros x [<- | [<- | Hx]]; simpl; [lia | lia |].
        destruct (chain_in _ _ _ _ Hch Hx). lia. }
      intros j Hj x [<- | [<- | Hx]]; simpl.
      * intros Hx. apply (Hj c (or_introl eq_refl)). lia.
      * intros Hx. apply (Hj c (or_introl eq_refl)). lia.
      * apply Hj. now right.
    + destruct (IH (cend c) Hch (fun x Hx => Hok x (or_intror Hx)))
        as [cs' [Hs [Hch' [Hed [Hco [Hor [Hcut Hj]]]]]]].
      rewrite Hs. exists (c :: cs'). split; [reflexivity|].
      split; [simpl; auto|].
      split; [intros p; unfold edited_at in *; cbn [existsb]; now rewrite Hed|].
      split.
      { intros src Hb Hc0 x [<- | Hx] Hxe; [apply Hc0; [now left | exact Hxe]|].
        apply (Hco src Hb); [intros y Hy; apply Hc0; now right | exact Hx | exact Hxe]. }
      split.
      { intros done H0 x [<- | Hx]; [apply H0; now left|].
        apply (Hor done); [intros y Hy; apply H0; now right | exact Hx]. }
      split.
      { intros x [<- | Hx].
        - apply andb_false_iff in Hin as [H | H]; apply Nat.ltb_ge in H; lia.
        - exact (Hcut x Hx). }
      intros j H0 x [<- | Hx]; [apply H0; now left|].
      apply (Hj j); [intros y Hy; apply H0; now right | exact Hx].
Qed.

(** *** One [overwrite] call, and the walk's sequence of calls *)

Lemma chain_map_edit (e : Edit) (a b : nat) (cs : list Chunk) :
  chain a cs b -> chain a (map (edit_chunk e) cs) b.
Proof.
  revert a. induction cs as [|c cs IH]; intros a H; [exact H|].
  destruct H as [H1 [H2 H3]].
  assert (Hs : cstart (edit_chunk e c) = cstart c /\ cend (edit_chunk e c) = cend c)
    by (unfold edit_chunk; destruct (_ && _); auto).
  cbn [map chain]. rewrite (proj1 Hs), (proj2 Hs). auto.
Qed.

Lemma edit_chunk_in (e : Edit) (c : Chunk) :
  (ostart e <=? cstart c) && (cstart c <? oend e) = true ->
  edit_chunk e c = mkChunk (cstart c) (cend c)
                     (if cstart c =? ostart e then content e else "") true.
Proof. unfold edit_chunk. now intros ->. Qed.

Lemma edit_chunk_out (e : Edit) (c : Chunk) :
  (ostart e <=? cstart c) && (cstart c <? oend e) = false -> edit_chunk e c = c.
Proof. unfold edit_chunk. now intros ->. Qed.

Lemma covered_snoc (es : list Edit) (e : Edit) (p : nat) :
  covered (es ++ [e]) p = covered es p || ((ostart e <=? p) && (p <? oend e)).
Proof. unfold covered. rewrite existsb_app. simpl. now rewrite orb_false_r. Qed.

Lemma no_content_split (done : list Edit) (cs : list Chunk) (i : nat) :
  origin_ok done cs ->
  (forall d, In d done -> content d <> EmptyString -> ~ inside i d) ->
  forall c, In c cs -> cstart c < i < cend c -> cedited c = true ->
  ccontent c = EmptyString.
Proof.
  intros Hor Hd c Hc Hi He.
  destruct (string_dec (ccontent c) EmptyString) as [Hs | Hs]; [exact Hs|].
  destruct (Hor c Hc He Hs) as [d [Hdin [Hdc [Hds Hde]]]].
  exfalso. apply (Hd d Hdin Hdc). unfold inside. lia.
Qed.

Lemma ms_update_ok (src : string) (done : list Edit) (cs : list Chunk) (e : Edit) :
  ms_inv src done cs -> ostart e < oend e -> oend e <= length src ->
  (forall d, In d done -> content d <> EmptyString ->
             ~ inside (ostart e) d /\ ~ inside (oend e) d) ->
  exists cs', ms_update (length src) cs e = Some cs'
              /\ ms_inv src (done ++ [e]) cs'.
Proof.
  intros [Hch [Hco [Hed Hor]]] Hse Hel Hd.
  unfold ms_update.
  replace (length src <? oend e) with false by (symmetry; apply Nat.ltb_ge; lia).
  replace (ostart e =? oend e) with false by (symmetry; apply Nat.eqb_neq; lia).
  destruct (split_at_ok (ostart e) 0 (length src) cs Hch
              (no_content_split done cs _ Hor (fun d H1 H2 => proj1 (Hd d H1 H2))))
    as [cs1 [Hs1 [Hch1 [Hed1 [Hco1 [Hor1 [Hcut1 _]]]]]]].
  rewrite Hs1.
  pose proof (Hco1 src (le_n _) Hco) as Hco1'.
  pose proof (Hor1 done Hor) as Hor1'.
  destruct (split_at_ok (oend e) 0 (length src) cs1 Hch1
              (no_content_split done cs1 _ Hor1' (fun d H1 H2 => proj2 (Hd d H1 H2))))
    as [cs2 [Hs2 [Hch2 [Hed2 [Hco2 [Hor2 [Hcut2 Hj2]]]]]]].
  rewrite Hs2.
  pose proof (Hco2 src (le_n _) Hco1') as Hco2'.
  pose proof (Hor2 done Hor1') as Hor2'.
  pose proof (Hj2 _ Hcut1) as Hcut1'.
  assert (Hfirst : existsb (fun c => cstart c =? ostart e) cs2 = true).
  { destruct (chain_cover 0 (length src) (ostart e) cs2 Hch2 ltac:(lia))
      as [c [Hc Hp]].
    apply existsb_exists. exists c. split; [exact Hc|].
    apply Nat.eqb_eq. specialize (Hcut1' c Hc). lia. }
  rewrite Hfirst.
  replace (oend e <? ostart e) with false by (symmetry; apply Nat.ltb_ge; lia).
  exists (map (edit_chunk e) cs2). split; [reflexivity|].
  (* the chunks of the range are exactly those inside it *)
  assert (Hrange : forall c, In c cs2 ->
            (ostart e <=? cstart c) && (cstart c <? oend e) = true ->
            ostart e <= cstart c /\ cend c <= oend e).
  { intros c Hc Hr. apply andb_true_iff in Hr as [H1 H2].
    apply Nat.leb_le in H1. apply Nat.ltb_lt in H2.
    specialize (Hcut2 c Hc). destruct (chain_in _ _ _ _ Hch2 Hc). lia. }
  split; [exact (chain_map_edit e _ _ _ Hch2)|].
  split.
  { intros x Hx Hxe. apply in_map_iff in Hx as [c [<- Hc]].
    destruct ((ostart e <=? cstart c) && (cstart c <? oend e)) eqn:Hr.
    - rewrite (edit_chunk_in e c Hr) in Hxe. discriminate.
    - rewrite (edit_chunk_out e c Hr) in Hxe |- *. exact (Hco2' c Hc Hxe). }
  split.
  { intros p. rewrite covered_snoc, <- Hed, <- Hed1, <- Hed2.
    destruct (Nat.lt_ge_cases p (length src)) as [Hp | Hp].
    - destruct (chain_cover 0 (length src) p cs2 Hch2 ltac:(lia)) as [c [Hc Hcp]].
      rewrite (edited_at_chunk _ _ _ _ _ Hch2 Hc Hcp).
      assert (Hc' : In (edit_chunk e c) (map (edit_chunk e) cs2)) by (apply in_map; exact Hc).
      assert (Hcp' : cstart (edit_chunk e c) <= p < cend (edit_chunk e c))
        by (unfold edit_chunk; destruct (_ && _); exact Hcp).
      rewrite (edited_at_chunk _ _ _ _ _ (chain_map_edit e _ _ _ Hch2) Hc' Hcp').
      specialize (Hcut1' c Hc). specialize (Hcut2 c Hc).
      unfold edit_chunk. nat_bools; simpl; rewrite ?orb_true_r, ?orb_false_r;
        first [reflexivity | lia].
    - rewrite (edited_at_outside _ _ _ _ (chain_map_edit e _ _ _ Hch2) (or_intror Hp)).
      rewrite (edited_at_outside _ _ _ _ Hch2 (or_intror Hp)).
      replace (p <? oend e) with false by (symmetry; apply Nat.ltb_ge; lia).
      now rewrite andb_false_r. }
  intros x Hx Hxe Hxc. apply in_map_iff in Hx as [c [<- Hc]].
  destruct ((ostart e <=? cstart c) && (cstart c <? oend e)) eqn:Hr.
  - destruct (Hrange c Hc Hr) as [_ Hce].
    rewrite (edit_chunk_in e c Hr) in Hxc |- *. cbn [ccontent cstart cend] in Hxc |- *.
    destruct (Nat.eqb_spec (cstart c) (ostart e)) as [Heq | _]; [|congruence].
    exists e. split; [apply in_or_app; right; now left|]. auto.
  - rewrite (edit_chunk_out e c Hr) in Hxe, Hxc |- *.
    destruct (Hor2' c Hc Hxe Hxc) as [d [Hdin Hdd]].
    exists d. split; [apply in_or_app; now left | exact Hdd].
Qed.


Lemma substring_full (s : string) : substring 0 (length s) s = s.
Proof. induction s as [|c s IH]; [reflexivity|]. simpl. now rewrite IH. Qed.

Lemma ms_inv_init (src : string) : ms_inv src [] (magic_string src).
Proof.
  split; [simpl; repeat split; lia|].
  split; [intros c [<- | []] _; simpl; now rewrite Nat.sub_0_r, substring_full|].
  split; [intros p; reflexivity|].
  intros c [<- | []] He. discriminate.
Qed.

(** *** The walk's edits never split new content *)










(** *** The rendered text *)





(** *** Disjoint overwrites: the chain renders [trace] *)

Lemma split_at_edited (i : nat) (cs : list Chunk) :
  (forall c, In c cs -> cstart c < i < cend c -> cedited c = false) ->
  forall cs', split_at i cs = Some cs' ->
  (forall c, In c cs' -> cedited c = true -> In c cs)
  /\ (forall c, In c cs -> cedited c = true -> In c cs')
  /\ (forall c', In c' cs' ->
        (cstart c' = i \/ exists c, In c cs /\ cstart c' = cstart c)
        /\ (cend c' = i \/ exists c, In c cs /\ cend c' = cend c)
        /\ (cstart c' < cend c' \/ exists c, In c cs /\ c' = c)).
Proof.
  induction cs as [|c cs IH]; intros Hok cs' Hs.
  - injection Hs as <-. split; [|split]; intros ? [].
  - cbn [split_at] in Hs.
    destruct ((cstart c <? i) && (i <? cend c)) eqn:Hin.
    + apply andb_true_iff in Hin as [H1 H2].
      apply Nat.ltb_lt in H1. apply Nat.ltb_lt in H2.
      assert (Hf : cedited c = false) by (apply Hok; [now left | lia]).
      rewrite Hf in Hs. cbn [andb] in Hs. injection Hs as <-.
      unfold split_chunk. rewrite Hf. cbn [app].
      split; [|split].
      * intros x [<- | [<- | Hx]] Hx'; [discriminate | discriminate | now right].
      * intros x [<- | Hx] Hx'; [congruence | right; right; exact Hx].
      * intros x [<- | [<- | Hx]]; cbn [cstart cend].
        -- split; [right; exists c; split; [now left | reflexivity]|].
           split; [now left | left; lia].
        -- split; [now left|]. split; [right; exists c; split; [now left | reflexivity]|].
           left; lia.
        -- split; [right; exists x; split; [now right | reflexivity]|].
           split; [right; exists x; split; [now right | reflexivity]|].
           right; exists x; split; [now right | reflexivity].
    + destruct (split_at i cs) as [cs0|] eqn:Hs0; [|discriminate].
      injection Hs as <-.
      destruct (IH (fun x Hx => Hok x (or_intror Hx)) cs0 eq_refl) as [A [B C]].
      split; [|split].
      * intros x [<- | Hx] Hx'; [now left | right; exact (A x Hx Hx')].
      * intros x [<- | Hx] Hx'; [now left | right; exact (B x Hx Hx')].
      * intros x [<- | Hx].
        -- split; [right; exists c; split; [now left | reflexivity]|].
           split; [right; exists c; split; [now left | reflexivity]|].
           right; exists c; split; [now left | reflexivity].
        -- destruct (C x Hx) as [C1 [C2 C3]].
           split; [destruct C1 as [C1 | [y [Hy Hy']]]; [now left | right; exists y; split; [now right | exact Hy']]|].
           split; [destruct C2 as [C2 | [y [Hy Hy']]]; [now left | right; exists y; split; [now right | exact Hy']]|].
           destruct C3 as [C3 | [y [Hy Hy']]]; [now left | right; exists y; split; [now right | exact Hy']].
Qed.

Lemma boundary_not_inside (done : list Edit) (e : Edit) (x : nat) :
  ostart e < oend e ->
  (forall d, In d done -> ostart d < oend d
             /\ (d = e \/ oend d <= ostart e \/ oend e <= ostart d)) ->
  boundary (done ++ [e]) x -> ~ (ostart e < x < oend e).
Proof.
  intros He Hd [d [Hin Hx]]. apply in_app_or in Hin as [Hin | [<- | []]]; [|lia].
  destruct (Hd d Hin) as [Hne [-> | Hs]]; lia.
Qed.

Lemma boundary_app (done : list Edit) (e : Edit) (x : nat) :
  boundary done x -> boundary (done ++ [e]) x.
Proof. intros [d [Hd Hx]]. exists d. split; [apply in_or_app; now left | exact Hx]. Qed.

Lemma boundary_new (done : list Edit) (e : Edit) (x : nat) :
  x = ostart e \/ x = oend e -> boundary (done ++ [e]) x.
Proof. intros Hx. exists e. split; [apply in_or_app; right; now left | exact Hx]. Qed.

Lemma cut_points_app (len : nat) (done : list Edit) (e : Edit) (cs : list Chunk) :
  cut_points_ok len done cs -> cut_points_ok len (done ++ [e]) cs.
Proof.
  intros H c Hc. destruct (H c Hc) as [H1 [H2 H3]].
  split; [exact H1|]. split.
  - destruct H2 as [H2 | H2]; [now left | right; now apply boundary_app].
  - destruct H3 as [H3 | H3]; [now left | right; now apply boundary_app].
Qed.

Lemma cut_points_split (len : nat) (done : list Edit) (i : nat) (cs cs' : list Chunk) :
  cut_points_ok len done cs -> boundary done i ->
  (forall c', In c' cs' ->
        (cstart c' = i \/ exists c, In c cs /\ cstart c' = cstart c)
        /\ (cend c' = i \/ exists c, In c cs /\ cend c' = cend c)
        /\ (cstart c' < cend c' \/ exists c, In c cs /\ c' = c)) ->
  cut_points_ok len done cs'.
Proof.
  intros H Hi Hs c' Hc'. destruct (Hs c' Hc') as [S [E N]].
  split; [|split].
  - destruct N as [N | [c [Hc ->]]]; [exact N | exact (proj1 (H c Hc))].
  - destruct S as [-> | [c [Hc ->]]]; [now right | exact (proj1 (proj2 (H c Hc)))].
  - destruct E as [-> | [c [Hc ->]]]; [now right | exact (proj2 (proj2 (H c Hc)))].
Qed.

Lemma edit_chunk_bounds (e : Edit) (c : Chunk) :
  cstart (edit_chunk e c) = cstart c /\ cend (edit_chunk e c) = cend c.
Proof. unfold edit_chunk. now destruct (_ && _). Qed.

Lemma edited_not_cut (done : list Edit) (cs : list Chunk) (e : Edit) (i : nat) :
  edits_match done cs ->
  (forall d, In d done -> ostart d < oend d
             /\ (d = e \/ oend d <= ostart e \/ oend e <= ostart d)) ->
  ostart e < oend e -> (i = ostart e \/ i = oend e) ->
  forall c, In c cs -> cstart c < i < cend c -> cedited c = false.
Proof.
  intros [Hm _] Hd He Hi c Hc Hin. destruct (cedited c) eqn:Hce; [|reflexivity].
  destruct (Hm c Hc Hce) as [d [Hdd [Hs [Hend _]]]].
  destruct (Hd d Hdd) as [Hlt [-> | Hx]]; lia.
Qed.

Lemma ms_update_disjoint (src : string) (done : list Edit) (cs : list Chunk) (e : Edit) :
  ms_inv src done cs -> cut_points_ok (length src) done cs -> edits_match done cs ->
  ostart e < oend e -> oend e <= length src ->
  (forall d, In d done -> ostart d < oend d
             /\ (d = e \/ oend d <= ostart e \/ oend e <= ostart d)) ->
  exists cs', ms_update (length src) cs e = Some cs'
    /\ ms_inv src (done ++ [e]) cs'
    /\ cut_points_ok (length src) (done ++ [e]) cs'
    /\ edits_match (done ++ [e]) cs'.
Proof.
  intros Hinv Hcut Hm He Hel Hd.
  assert (Hdn : forall d, In d done -> content d <> EmptyString ->
                ~ inside (ostart e) d /\ ~ inside (oend e) d).
  { intros d Hdd _. unfold inside. destruct (Hd d Hdd) as [Hlt [-> | H]]; lia. }
  destruct (ms_update_ok src done cs e Hinv He Hel Hdn) as [cs' [Hu Hinv']].
  exists cs'. split; [exact Hu|]. split; [exact Hinv'|].
  destruct Hinv as [Hch [Hco [Hed Hor]]].
  destruct (split_at_ok (ostart e) 0 (length src) cs Hch
              (no_content_split done cs _ Hor (fun d H1 H2 => proj1 (Hdn d H1 H2))))
    as [cs1 [Hs1 [Hch1 [_ [_ [Hor1 [Hcut1 _]]]]]]].
  pose proof (Hor1 done Hor) as Hor1'.
  destruct (split_at_ok (oend e) 0 (length src) cs1 Hch1
              (no_content_split done cs1 _ Hor1' (fun d H1 H2 => proj2 (Hdn d H1 H2))))
    as [cs2 [Hs2 [Hch2 [_ [_ [_ [Hcut2 Hj2]]]]]]].
  pose proof (Hj2 _ Hcut1) as Hcut1'.
  destruct (split_at_edited (ostart e) cs
              (edited_not_cut done cs e _ Hm Hd He (or_introl eq_refl)) cs1 Hs1)
    as [A1 [B1 C1]].
  assert (Hm1 : forall c, In c cs1 -> cstart c < oend e < cend c -> cedited c = false).
  { intros c Hc Hin. destruct (cedited c) eqn:Hce; [|reflexivity].
    pose proof (edited_not_cut done cs e (oend e) Hm Hd He (or_intror eq_refl) c
                  (A1 c Hc Hce) Hin). congruence. }
  destruct (split_at_edited (oend e) cs1 Hm1 cs2 Hs2) as [A2 [B2 C2]].
  assert (Hu' : ms_update (length src) cs e = Some (map (edit_chunk e) cs2)).
  { unfold ms_update.
    replace (length src <? oend e) with false by (symmetry; apply Nat.ltb_ge; lia).
    replace (ostart e =? oend e) with false by (symmetry; apply Nat.eqb_neq; lia).
    rewrite Hs1, Hs2.
    assert (Hfirst : existsb (fun c => cstart c =? ostart e) cs2 = true).
    { destruct (chain_cover 0 (length src) (ostart e) cs2 Hch2 ltac:(lia))
        as [c [Hc Hp]].
      apply existsb_exists. exists c. split; [exact Hc|].
      apply Nat.eqb_eq. specialize (Hcut1' c Hc). lia. }
    rewrite Hfirst.
    replace (oend e <? ostart e) with false by (symmetry; apply Nat.ltb_ge; lia).
    reflexivity. }
  rewrite Hu' in Hu. injection Hu as <-.
  assert (Hc1 : cut_points_ok (length src) (done ++ [e]) cs1)
    by exact (cut_points_split _ _ _ _ _ (cut_points_app _ _ _ _ Hcut)
                (boundary_new done e _ (or_introl eq_refl)) C1).
  assert (Hc2 : cut_points_ok (length src) (done ++ [e]) cs2)
    by exact (cut_points_split _ _ _ _ _ Hc1
                (boundary_new done e _ (or_intror eq_refl)) C2).
  assert (Hsingle : forall c, In c cs2 -> ostart e <= cstart c < oend e ->
                    cstart c = ostart e /\ cend c = oend e).
  { intros c Hc Hr. destruct (Hc2 c Hc) as [Hne [Hs Hx]].
    pose proof (Hcut2 c Hc) as Hn. pose proof (chain_in _ _ _ _ Hch2 Hc) as Hb.
    split.
    - destruct Hs as [Hs | Hs]; [lia|].
      pose proof (boundary_not_inside done e _ He Hd Hs). lia.
    - destruct Hx as [Hx | Hx]; [lia|].
      pose proof (boundary_not_inside done e _ He Hd Hx). lia. }
  assert (Hnew : exists c, In c (map (edit_chunk e) cs2) /\ cedited c = true
                   /\ cstart c = ostart e /\ cend c = oend e /\ ccontent c = content e).
  { destruct (chain_cover 0 (length src) (ostart e) cs2 Hch2 ltac:(lia))
      as [c [Hc Hp]].
    specialize (Hcut1' c Hc).
    assert (Hcs : cstart c = ostart e) by lia.
    destruct (Hsingle c Hc ltac:(lia)) as [_ Hce].
    assert (Hr : (ostart e <=? cstart c) && (cstart c <? oend e) = true)
      by (apply andb_true_iff; split; [apply Nat.leb_le | apply Nat.ltb_lt]; lia).
    exists (edit_chunk e c). split; [now apply in_map|].
    rewrite (edit_chunk_in e c Hr). cbn [cedited cstart cend ccontent].
    rewrite Hcs, Nat.eqb_refl. auto. }
  split.
  { intros x Hx. apply in_map_iff in Hx as [c [<- Hc]].
    destruct (Hc2 c Hc) as [H1 [H2 H3]].
    destruct (edit_chunk_bounds e c) as [-> ->]. auto. }
  split.
  - intros x Hx Hxe. apply in_map_iff in Hx as [c [<- Hc]].
    destruct ((ostart e <=? cstart c) && (cstart c <? oend e)) eqn:Hr.
    + pose proof Hr as Hr'. apply andb_true_iff in Hr' as [H1 H2].
      apply Nat.leb_le in H1. apply Nat.ltb_lt in H2.
      destruct (Hsingle c Hc ltac:(lia)) as [Hcs Hce].
      rewrite (edit_chunk_in e c Hr). cbn [cstart cend ccontent].
      rewrite Hcs, Nat.eqb_refl.
      exists e. split; [apply in_or_app; right; now left | auto].
    + rewrite (edit_chunk_out e c Hr) in Hxe |- *.
      destruct (proj1 Hm c (A1 c (A2 c Hc Hxe) Hxe) Hxe) as [d [Hdd Hdc]].
      exists d. split; [apply in_or_app; now left | exact Hdc].
  - intros d Hdd. apply in_app_or in Hdd as [Hdd | [<- | []]]; [|exact Hnew].
    destruct (Hd d Hdd) as [Hlt [-> | Hdis]]; [exact Hnew|].
    destruct (proj2 Hm d Hdd) as [c [Hc [Hce [Hcs [Hcn Hcc]]]]].
    assert (Hr : (ostart e <=? cstart c) && (cstart c <? oend e) = false).
    { destruct (Nat.leb_spec (ostart e) (cstart c)), (Nat.ltb_spec (cstart c) (oend e));
        simpl; [lia | reflexivity | reflexivity | reflexivity]. }
    exists c. split; [|auto].
    rewrite <- (edit_chunk_out e c Hr). apply in_map. exact (B2 c (B1 c Hc Hce) Hce).
Qed.

Lemma ms_run_disjoint (src : string) (es : list Edit) :
  forall done cs, ms_inv src done cs -> cut_points_ok (length src) done cs ->
  edits_match done cs ->
  (forall x, In x (done ++ es) -> ostart x < oend x /\ oend x <= length src) ->
  (forall x y, In x (done ++ es) -> In y (done ++ es) ->
               x = y \/ oend x <= ostart y \/ oend y <= ostart x) ->
  exists cs', ms_run (length src) cs es = Some cs'
    /\ ms_inv src (done ++ es) cs'
    /\ cut_points_ok (length src) (done ++ es) cs'
    /\ edits_match (done ++ es) cs'.
Proof.
  induction es as [|e es IH]; intros done cs Hinv Hcut Hm Hb Hs.
  - exists cs. rewrite app_nil_r. auto.
  - assert (He : In e (done ++ e :: es)) by (apply in_or_app; right; now left).
    destruct (Hb e He) as [He1 He2].
    assert (Hd : forall d, In d done -> ostart d < oend d
                 /\ (d = e \/ oend d <= ostart e \/ oend e <= ostart d)).
    { intros d Hd. assert (Hd' : In d (done ++ e :: es)) by (apply in_or_app; now left).
      split; [exact (proj1 (Hb d Hd')) | exact (Hs d e Hd' He)]. }
    destruct (ms_update_disjoint src done cs e Hinv Hcut Hm He1 He2 Hd)
      as [cs1 [Hu [Hinv1 [Hcut1 Hm1]]]].
    cbn [ms_run]. rewrite Hu.
    replace (done ++ e :: es) with ((done ++ [e]) ++ es) in Hb, Hs |- *
      by (now rewrite <- app_assoc).
    exact (IH (done ++ [e]) cs1 Hinv1 Hcut1 Hm1 Hb Hs).
Qed.

Lemma trace_from_plain (len : nat) (es : list Edit) :
  forall k i fuel, (forall p, i <= p < i + k -> edit_at es p = None) ->
  i + k <= len -> k <= fuel ->
  trace_from len es fuel i = map Orig (seq i k) ++ trace_from len es (fuel - k) (i + k).
Proof.
  induction k as [|k IH]; intros i fuel Hn Hl Hf.
  - now rewrite Nat.add_0_r, Nat.sub_0_r.
  - destruct fuel as [|f]; [lia|]. cbn [trace_from].
    replace (len <=? i) with false by (symmetry; apply Nat.leb_gt; lia).
    rewrite (Hn i ltac:(lia)).
    rewrite (IH (S i) f (fun p Hp => Hn p ltac:(lia)) ltac:(lia) ltac:(lia)).
    replace (S i + k) with (i + S k) by lia. reflexivity.
Qed.

Lemma chain_trace (len : nat) (es : list Edit) :
  forall cs a fuel, chain a cs len ->
  (forall c, In c cs -> cstart c < cend c) ->
  (forall c, In c cs -> cedited c = true ->
     exists d, edit_at es (cstart c) = Some d /\ oend d = cend c
               /\ content d = ccontent c) ->
  (forall c, In c cs -> cedited c = false ->
     forall p, cstart c <= p < cend c -> edit_at es p = None) ->
  len - a < fuel ->
  ms_pieces cs = trace_from len es fuel a.
Proof.
  induction cs as [|c cs IH]; intros a fuel Hch Hne Hed Hun Hf.
  - cbn [chain] in Hch. subst a. destruct fuel as [|f]; [reflexivity|].
    cbn [trace_from]. now rewrite Nat.leb_refl.
  - destruct Hch as [Ha [Hc Hch]]. subst a.
    pose proof (Hne c (or_introl eq_refl)) as Hlt.
    pose proof (chain_le _ _ _ Hch) as Hle.
    unfold ms_pieces. cbn [flat_map]. fold (ms_pieces cs).
    unfold chunk_pieces. destruct (cedited c) eqn:Hce.
    + destruct (Hed c (or_introl eq_refl) Hce) as [d [Hd [Hde Hdc]]].
      destruct fuel as [|f]; [lia|]. cbn [trace_from].
      replace (len <=? cstart c) with false by (symmetry; apply Nat.leb_gt; lia).
      rewrite Hd, Hde, Hdc. cbn [app]. f_equal.
      apply IH; [exact Hch | intros x Hx; apply Hne; now right
        | intros x Hx; apply Hed; now right | intros x Hx; apply Hun; now right | lia].
    + rewrite (trace_from_plain len es (cend c - cstart c) (cstart c) fuel
                 (fun p Hp => Hun c (or_introl eq_refl) Hce p ltac:(lia)) ltac:(lia) ltac:(lia)).
      f_equal. replace (cstart c + (cend c - cstart c)) with (cend c) by lia.
      apply IH; [exact Hch | intros x Hx; apply Hne; now right
        | intros x Hx; apply Hed; now right | intros x Hx; apply Hun; now right | lia].
Qed.

Lemma edit_at_unique (es : list Edit) (d : Edit) :
  (forall x, In x es -> ostart x < oend x) ->
  (forall x y, In x es -> In y es -> x = y \/ oend x <= ostart y \/ oend y <= ostart x) ->
  In d es -> edit_at es (ostart d) = Some d.
Proof.
  intros Hne Hs Hd. unfold edit_at.
  destruct (find (fun e => ostart e =? ostart d) es) as [d'|] eqn:Hf.
  - apply find_some in Hf as [Hd' Heq]. apply Nat.eqb_eq in Heq.
    destruct (Hs d' d Hd' Hd) as [-> | H]; [reflexivity|].
    pose proof (Hne d Hd). pose proof (Hne d' Hd'). lia.
  - apply (find_none _ _ Hf) in Hd. now rewrite Nat.eqb_refl in Hd.
Qed.

Lemma ms_run_edits_ok (src : string) (es : list Edit) :
  edits_ok (length src) es = true ->
  exists cs, ms_run (length src) (magic_string src) es = Some cs
             /\ ms_toString cs = toString src es.
Proof.
  intros Hok. destruct (edits_ok_inv _ _ Hok) as [Hb Hpd].
  pose proof (pairwise_disjoint_spec es Hpd) as Hs.
  destruct (Nat.eq_dec (length src) 0) as [H0 | H0].
  - destruct es as [|e es]; [|destruct (Hb e (or_introl eq_refl)); lia].
    exists (magic_string src). split; [reflexivity|].
    destruct src; [reflexivity | discriminate].
  - assert (Hcut : cut_points_ok (length src) [] (magic_string src)).
    { intros c [<- | []]. cbn [cstart cend]. split; [lia|]. auto. }
    assert (Hm : edits_match [] (magic_string src)).
    { split; [intros c [<- | []]; discriminate | intros d []]. }
    destruct (ms_run_disjoint src es [] (magic_string src) (ms_inv_init src) Hcut Hm
                Hb Hs)
      as [cs [Hr [Hinv [Hcut' Hm']]]].
    exists cs. split; [exact Hr|].
    destruct Hinv as [Hch [Hco _]].
    rewrite (ms_output src 0 (length src) cs Hch (le_n _) Hco).
    unfold toString, trace. f_equal. f_equal.
    apply (chain_trace (length src) es cs 0 _ Hch); [| | | lia].
    + intros c Hc. exact (proj1 (Hcut' c Hc)).
    + intros c Hc Hce. destruct (proj1 Hm' c Hc Hce) as [d [Hd [Hds [Hde Hdc]]]].
      exists d. rewrite <- Hds. split; [|auto].
      apply edit_at_unique; [intros x Hx; exact (proj1 (Hb x Hx)) | exact Hs | exact Hd].
    + intros c Hc Hce p Hp. destruct (edit_at es p) as [d|] eqn:Hf; [|reflexivity].
      unfold edit_at in Hf. apply find_some in Hf as [Hd Heq]. apply Nat.eqb_eq in Heq.
      destruct (proj2 Hm' d Hd) as [c' [Hc' [Hce' [Hcs' [Hcn' _]]]]].
      pose proof (Hb d Hd).
      assert (c = c') as <- by (apply (chain_unique 0 (length src) p cs c c' Hch Hc Hc'); lia).
      congruence.
Qed.


(** ** C3: named-import lists keep their value specifiers *)




(** ** C10: deleted declarations take their leading trivia *)




(** * Further properties of the code *)

(** ** [normalize] *)

Lemma trim_end_after_word (s : jsstring) :
  trim_end (replace_ws false s) = words_joined true false s
  /\ trim_end (32%N :: replace_ws true s) = words_joined true true s.
Proof.
  induction s as [|c s [IH1 IH2]]; [split; reflexivity|].
  cbn [replace_ws words_joined]. destruct (is_ws c) eqn:Hc.
  - split; [|exact IH2]. exact IH2.
  - cbn [trim_end]. rewrite Hc, IH1. split; reflexivity.
Qed.

Lemma normalize_words (s : jsstring) : normalize s = words_joined false false s.
Proof.
  assert (H : forall s, trim_end (trim_start (replace_ws false s)) = words_joined false false s
                        /\ trim_end (trim_start (replace_ws true s))
                           = words_joined false false s).
  { clear s. induction s as [|c s [IH1 IH2]]; [split; reflexivity|].
    cbn [replace_ws words_joined]. destruct (is_ws c) eqn:Hc.
    - split; [|exact IH2]. cbn [trim_start]. exact IH2.
    - cbn [trim_start]. rewrite Hc. cbn [trim_end]. rewrite Hc.
      rewrite (proj1 (trim_end_after_word s)). split; reflexivity. }
  exact (proj1 (H s)).
Qed.

Lemma words_joined_fixed (s : jsstring) :
  forall b p, (p = true -> b = true) ->
  words_joined b false (words_joined b p s) = words_joined b p s.
Proof.
  induction s as [|c s IH]; intros b p Hp; [reflexivity|].
  cbn [words_joined]. destruct (is_ws c) eqn:Hc.
  - destruct b; [apply IH; auto | apply IH; auto].
  - destruct p.
    + rewrite (Hp eq_refl).
      change (words_joined true false (32%N :: c :: words_joined true false s))
        with (words_joined true true (c :: words_joined true false s)).
      cbn [words_joined]. rewrite Hc. rewrite (IH true false); auto.
    + cbn [words_joined]. rewrite Hc. rewrite (IH true false); auto.
Qed.

Lemma words_joined_blank (w : jsstring) :
  all_ws w = true -> forall b p, words_joined b p w = [].
Proof.
  induction w as [|c w IH]; [reflexivity|]. cbn [all_ws words_joined].
  intros H b p. apply andb_true_iff in H as [Hc Hw]. rewrite Hc. apply IH, Hw.
Qed.

Lemma words_joined_skip_blank (w t : jsstring) :
  all_ws w = true -> forall b, words_joined b b (w ++ t) = words_joined b b t.
Proof.
  induction w as [|c w IH]; [reflexivity|]. cbn [all_ws app words_joined].
  intros H b. apply andb_true_iff in H as [Hc Hw]. rewrite Hc. apply IH, Hw.
Qed.

Lemma words_joined_app (a : jsstring) :
  forall b p, (p = true -> b = true) ->
  exists b' p', (p' = true -> b' = true)
    /\ forall t, words_joined b p (a ++ t) = words_joined b p a ++ words_joined b' p' t.
Proof.
  induction a as [|c a IH]; intros b p Hp.
  - exists b, p. split; [exact Hp | reflexivity].
  - cbn [app words_joined]. destruct (is_ws c) eqn:Hc.
    + destruct (IH b b (fun H => H)) as [b' [p' [Hp' Ht]]].
      exists b', p'. split; [exact Hp'|exact Ht].
    + destruct (IH true false (fun _ => eq_refl)) as [b' [p' [Hp' Ht]]].
      exists b', p'. split; [exact Hp'|]. intros t.
      destruct p; cbn [app]; now rewrite Ht.
Qed.

Lemma words_joined_shape (s : jsstring) :
  forall b p a c r, (p = true -> b = true) ->
  words_joined b p s = a ++ c :: r -> is_ws c = true ->
  c = 32%N
  /\ (exists y r', r = y :: r' /\ is_ws y = false)
  /\ (a = [] -> b = true)
  /\ (a <> [] -> exists a' x, a = a' ++ [x] /\ is_ws x = false).
Proof.
  induction s as [|c0 s IH]; intros b p a c r Hp Heq Hc.
  - destruct a; discriminate.
  - cbn [words_joined] in Heq. destruct (is_ws c0) eqn:Hc0.
    + exact (IH b b a c r (fun H => H) Heq Hc).
    + assert (Hw : forall a1, c0 :: words_joined true false s = a1 ++ c :: r ->
                   exists a2, a1 = c0 :: a2 /\
                     words_joined true false s = a2 ++ c :: r).
      { intros [|a0 a2] H; cbn [app] in H; injection H as <- H.
        - rewrite Hc0 in Hc. discriminate.
        - exists a2. split; [reflexivity|exact H]. }
      assert (Hlast : forall a2, words_joined true false s = a2 ++ c :: r ->
                c = 32%N /\ (exists y r', r = y :: r' /\ is_ws y = false)
                /\ exists a' x, c0 :: a2 = a' ++ [x] /\ is_ws x = false).
      { intros a2 H.
        destruct (IH true false a2 c r (fun _ => eq_refl) H Hc) as [H1 [H2 [_ H4]]].
        split; [exact H1|]. split; [exact H2|].
        destruct a2 as [|z a2].
        - exists [], c0. split; [reflexivity|exact Hc0].
        - destruct (H4 ltac:(discriminate)) as [a' [x [-> Hx]]].
          exists (c0 :: a'), x. split; [reflexivity|exact Hx]. }
      destruct p.
      * destruct a as [|a0 a1]; cbn [app] in Heq; injection Heq as <- Heq.
        -- split; [reflexivity|]. split; [exists c0, (words_joined true false s); auto|].
           split; [intros _; exact (Hp eq_refl)|]. intros H; now destruct H.
        -- destruct (Hw a1 Heq) as [a2 [-> H]].
           destruct (Hlast a2 H) as [H1 [H2 [a' [x [Ha Hx]]]]].
           split; [exact H1|]. split; [exact H2|]. split; [discriminate|].
           intros _. exists (32%N :: a'), x. cbn [app]. rewrite Ha.
           split; [reflexivity|exact Hx].
      * destruct (Hw a Heq) as [a2 [-> H]].
        destruct (Hlast a2 H) as [H1 [H2 H3]].
        split; [exact H1|]. split; [exact H2|]. split; [discriminate|].
        intros _. exact H3.
Qed.

(** [normalize] is idempotent: normalizing an already normalized string
    changes nothing. *)
Theorem normalize_idempotent (s : jsstring) : normalize (normalize s) = normalize s.
Proof.
  rewrite !normalize_words. apply words_joined_fixed. discriminate.
Qed.

(** [normalize] returns the empty string exactly on strings made only of
    whitespace code units (the empty string included). *)
Theorem normalize_empty_iff (s : jsstring) :
  normalize s = [] <-> all_ws s = true.
Proof.
  rewrite normalize_words. split.
  - induction s as [|c s IH]; [reflexivity|]. cbn [words_joined all_ws].
    destruct (is_ws c); [exact IH|]. destruct (false && _); intros H; discriminate H.
  - intros H. exact (words_joined_blank s H false false).
Qed.

(** [normalize] ignores the amount and kind of whitespace: replacing one
    non-empty run of whitespace by another gives the same result, and
    whitespace added before or after the string is dropped. *)
Theorem normalize_whitespace_insensitive (a b w1 w2 : jsstring)
  (H1 : all_ws w1 = true) (H2 : all_ws w2 = true)
  (Hn1 : w1 <> []) (Hn2 : w2 <> []) :
  normalize (a ++ w1 ++ b) = normalize (a ++ w2 ++ b)
  /\ normalize (w1 ++ a) = normalize a
  /\ normalize (a ++ w1) = normalize a.
Proof.
  rewrite !normalize_words.
  destruct (words_joined_app a false false (fun H => H)) as [b' [p' [Hp' Ha]]].
  assert (Hrun : forall w, all_ws w = true -> w <> [] ->
                 words_joined b' p' (w ++ b) = words_joined b' b' b).
  { intros [|c w] Hw Hne; [now destruct Hne|].
    cbn [all_ws] in Hw. apply andb_true_iff in Hw as [Hc Hw].
    cbn [app words_joined]. rewrite Hc. exact (words_joined_skip_blank w b Hw b'). }
  split; [|split].
  - rewrite !Ha, (Hrun w1 H1 Hn1), (Hrun w2 H2 Hn2). reflexivity.
  - exact (words_joined_skip_blank w1 a H1 false).
  - rewrite Ha, (words_joined_blank w1 H1). apply app_nil_r.
Qed.

(** The output of [normalize] has no whitespace at either end, and every
    whitespace code unit in it is a single space between two
    non-whitespace code units. *)
Theorem normalize_shape (s a r : jsstring) (c : N)
  (Heq : normalize s = a ++ c :: r) (Hc : is_ws c = true) :
  c = 32%N
  /\ (exists a' x, a = a' ++ [x] /\ is_ws x = false)
  /\ (exists y r', r = y :: r' /\ is_ws y = false).
Proof.
  rewrite normalize_words in Heq.
  destruct (words_joined_shape s false false a c r (fun H => H) Heq Hc)
    as [H1 [H2 [H3 H4]]].
  split; [exact H1|]. split; [|exact H2].
  apply H4. intros ->. discriminate (H3 eq_refl).
Qed.

(** [x], two spaces, [y] and [x], an ideographic space (0x3000) and a line
    separator (0x2028), [y] normalize alike, to [x y]. *)
Lemma normalize_whitespace_insensitive_witness :
  normalize ([120] ++ [32; 32] ++ [121])%N
  = normalize ([120] ++ [12288; 8232] ++ [121])%N
  /\ normalize ([120] ++ [32; 32] ++ [121])%N = [120; 32; 121]%N.
Proof.
  split; [|vm_compute; reflexivity].
  apply (normalize_whitespace_insensitive [120%N] [121%N] [32; 32]%N [12288; 8232]%N);
    first [reflexivity | discriminate].
Defined.

(** [normalize] of [a], a no-break space, a tab, [b] is [a b]: its one
    space lies between [a] and [b]. *)
Lemma normalize_shape_witness :
  normalize [97; 160; 9; 98]%N = ([97] ++ 32 :: [98])%N
  /\ 32%N = 32%N
  /\ (exists a' x, [97%N] = a' ++ [x] /\ is_ws x = false).
Proof.
  assert (H : normalize [97; 160; 9; 98]%N = ([97] ++ 32 :: [98])%N)
    by (vm_compute; reflexivity).
  destruct (normalize_shape [97; 160; 9; 98]%N [97%N] [98%N] 32%N H eq_refl) as [H1 [H2 _]].
  split; [exact H|]. split; [exact H1|exact H2].
Defined.

(** ** Rendering: order of the kept bytes and the inserted texts *)

Lemma trace_from_ins_src (len : nat) (es : list Edit) :
  forall fuel i s, In (Ins s) (trace_from len es fuel i) ->
  exists e, In e es /\ content e = s.
Proof.
  induction fuel as [|f IH]; intros i s H; cbn [trace_from] in H; [destruct H|].
  destruct (len <=? i); [destruct H|]. unfold edit_at in H.
  destruct (find (fun e => Nat.eqb (ostart e) i) es) as [e|] eqn:Hf.
  - destruct H as [H | H]; [|exact (IH _ _ H)].
    injection H as <-. apply find_some in Hf as [He _]. eauto.
  - destruct H as [H | H]; [discriminate | exact (IH _ _ H)].
Qed.

Section Trace_inserts.
Variable len : nat.
Variable es : list Edit.
Hypothesis Hbounds : forall e, In e es -> ostart e < oend e <= len.
Hypothesis Hdisj : pairwise_disjoint es = true.

Lemma trace_from_ins :
  forall fuel i, len < i + fuel -> not_inside es i ->
  forall e, In e es -> i <= ostart e -> In (Ins (content e)) (trace_from len es fuel i).
Proof.
  induction fuel as [|f IH]; intros i Hf Hi e He Hs.
  - pose proof (Hbounds e He). lia.
  - cbn [trace_from]. destruct (len <=? i) eqn:Hl.
    + apply Nat.leb_le in Hl. pose proof (Hbounds e He). lia.
    + apply Nat.leb_gt in Hl. unfold edit_at.
      destruct (find (fun e => Nat.eqb (ostart e) i) es) as [e'|] eqn:Hfind.
      * apply find_some in Hfind as [He' Hs']. apply Nat.eqb_eq in Hs'.
        pose proof (Hbounds e' He') as Hb'. pose proof (Hbounds e He) as Hb.
        destruct (pairwise_disjoint_spec es Hdisj e' e He' He) as [<- | [Hx | Hx]].
        -- now left.
        -- right. apply IH; [lia| |exact He|lia].
           intros e'' He'' Hin.
           destruct (pairwise_disjoint_spec es Hdisj e' e'' He' He'')
             as [<- | [Hy | Hy]]; lia.
        -- lia.
      * right. assert (Hne : ostart e <> i).
        { intros Heq. pose proof (find_none _ _ Hfind e He) as Hn. simpl in Hn.
          apply Nat.eqb_neq in Hn. contradiction. }
        apply IH; [lia| |exact He|lia].
        intros e'' He'' Hr. pose proof (find_none _ _ Hfind e'' He'') as Hn.
        simpl in Hn. apply Nat.eqb_neq in Hn. apply (Hi e'' He''). lia.
Qed.
End Trace_inserts.



(** With non-empty, pairwise disjoint overwrites within the text, the
    chunk chain MagicString builds renders exactly [transform]: on such
    edit lists the left-to-right reading [trace] is MagicString's output. *)
Theorem transform_matches_magic_string (src : string) (root : Node)
  (Hok : edits_ok (length src) (walk src root) = true) :
  ms_transform src root = Some (transform src root).
Proof.
  unfold ms_transform, transform.
  destruct (ms_run_edits_ok src (walk src root) Hok) as [cs [Hr Hs]].
  rewrite Hr. cbn [option_map]. now rewrite Hs.
Qed.

Lemma transform_matches_magic_string_witness :
  edits_ok (length src_const) (walk src_const ast_const) = true
  /\ ms_transform src_const ast_const = Some (transform src_const ast_const)
  /\ transform src_const ast_const = "const a = 123;"%string.
Proof.
  split; [vm_compute; reflexivity|].
  split; [apply transform_matches_magic_string; vm_compute; reflexivity|].
  vm_compute; reflexivity.
Defined.

(** With well-formed edits, the texts the rendering inserts are exactly the
    contents of the queued overwrites: each replacement the walk queues
    (an operand's text, a rewritten specifier list, an empty deletion)
    appears in the output, and nothing else is inserted. *)
Theorem transform_inserts_exactly_edits (src : string) (root : Node)
  (Hok : edits_ok (length src) (walk src root) = true) :
  forall s, In (Ins s) (trace src (walk src root))
            <-> exists e, In e (walk src root) /\ content e = s.
Proof.
  apply edits_ok_inv in Hok as [Hb Hd]. intros s. split.
  - apply trace_from_ins_src.
  - intros [e [He <-]]. unfold trace.
    apply (trace_from_ins (length src) (walk src root) Hb Hd); [lia | | exact He | lia].
    intros e' _ H. lia.
Qed.

(** In [export { type A, B, C };] the inserted text is [{B, C}]. *)
Lemma transform_inserts_exactly_edits_witness :
  In (Ins "{B, C}") (trace src_exports (walk src_exports ast_exports)).
Proof.
  apply (transform_inserts_exactly_edits src_exports ast_exports
           ltac:(vm_compute; reflexivity)).
  exists (overwrite 6 23 "{B, C}"). split; [vm_compute; now left | reflexivity].
Defined.

(** ** The walk: where edits fall *)

Lemma ordered_nth (cs : list Node) :
  ordered cs = true ->
  forall i j x y, i < j -> nth_error cs i = Some x -> nth_error cs j = Some y ->
  end_ x <= pos y.
Proof.
  induction cs as [|c cs IH]; intros Ho i j x y Hij Hx Hy; [destruct i; discriminate|].
  cbn [ordered] in Ho. apply andb_true_iff in Ho as [Hall Ho].
  rewrite forallb_forall in Hall.
  destruct i as [|i], j as [|j]; try lia; cbn [nth_error] in Hx, Hy.
  - injection Hx as <-. apply Nat.leb_le, Hall. exact (nth_error_In _ _ Hy).
  - apply (IH Ho i j); [lia|exact Hx|exact Hy].
Qed.

(** In a well-formed tree, every edit queued while walking a node lies
    inside that node's range [pos, end), and the edits queued for an
    earlier child all end before any edit queued for a later child
    starts: overlapping edits can only come from one child's subtree. *)
Theorem walk_edits_local (src : string) (n : Node) (Hwf : wf n = true) :
  (forall e, In e (walk src n) -> pos n <= ostart e /\ oend e <= end_ n)
  /\ (forall i j ci cj e1 e2, i < j ->
      nth_error (children n) i = Some ci -> nth_error (children n) j = Some cj ->
      In e1 (walk src ci) -> In e2 (walk src cj) -> oend e1 <= ostart e2).
Proof.
  split; [exact (walk_within src n Hwf)|].
  intros i j ci cj e1 e2 Hij Hi Hj H1 H2.
  destruct (wf_inv n Hwf) as [_ [_ [_ [_ [Hch Hord]]]]].
  pose proof (ordered_nth _ Hord i j ci cj Hij Hi Hj) as Hcc.
  destruct (Hch ci (nth_error_In _ _ Hi)) as [_ Hwi].
  destruct (Hch cj (nth_error_In _ _ Hj)) as [_ Hwj].
  destruct (walk_within src ci Hwi e1 H1). destruct (walk_within src cj Hwj e2 H2).
  lia.
Qed.

(** The two imports of scenario 1: the deletion of the first lies inside
    the file and ends before the rewrite of the second's list starts. *)
Lemma walk_edits_local_witness :
  In (overwrite 0 33 "") (walk src_imports import_type_foo)
  /\ In (overwrite 40 48 "{Bar}") (walk src_imports import_bar)
  /\ oend (overwrite 0 33 "") <= end_ ast_imports
  /\ oend (overwrite 0 33 "") <= ostart (overwrite 40 48 "{Bar}").
Proof.
  assert (Hwf : wf ast_imports = true) by (vm_compute; reflexivity).
  assert (H1 : In (overwrite 0 33 "") (walk src_imports import_type_foo))
    by (vm_compute; now left).
  assert (H2 : In (overwrite 40 48 "{Bar}") (walk src_imports import_bar))
    by (vm_compute; now left).
  destruct (walk_edits_local src_imports ast_imports Hwf) as [Hin Hsib].
  split; [exact H1|]. split; [exact H2|]. split.
  - apply (Hin (overwrite 0 33 "")). vm_compute. now left.
  - exact (Hsib 0 1 import_type_foo import_bar _ _ ltac:(lia) eq_refl eq_refl H1 H2).
Defined.

(** A statement of a well-formed source file whose own walk queues no
    edit is rendered verbatim, leading trivia included, whatever the other
    statements queue (with well-formed edits). *)
Theorem quiet_statement_verbatim (src : string) (root c : Node)
  (Hk : kind root = SourceFile) (Hwf : wf root = true)
  (Hlen : end_ root <= length src)
  (Hok : edits_ok (length src) (walk src root) = true)
  (Hc : In c (children root)) (Hq : walk src c = []) :
  forall p, pos c <= p < end_ c -> In (Orig p) (trace src (walk src root)).
Proof.
  intros p Hp.
  destruct (wf_inv root Hwf) as [_ [_ [_ [_ [Hch Hord]]]]].
  destruct (Hch c Hc) as [Hw _]. apply within_spec in Hw.
  apply (trace_orig src _ Hok). split; [lia|].
  destruct (source_file_quiet src root Hk) as [Hl Hr].
  rewrite walk_eq, Hl, Hr. simpl. apply covered_flat_map. intros d Hd.
  destruct (ordered_spec _ Hord d c Hd Hc) as [-> | Hdc].
  - rewrite Hq. reflexivity.
  - apply walk_outside_uncovered; [exact (proj2 (Hch d Hd))|lia].
Qed.

(** In [x; /* c */ type T = A;] the statement [x;] is kept as it is. *)
Lemma quiet_statement_verbatim_witness :
  In (Orig 0) (trace src_trivia (walk src_trivia ast_trivia))
  /\ In (Orig 1) (trace src_trivia (walk src_trivia ast_trivia)).
Proof.
  assert (H := quiet_statement_verbatim src_trivia ast_trivia
                 (mkt ExpressionStatement 0 0 2 [tok SemicolonToken 1 1 2]
                    [tok Identifier 0 0 1])
                 eq_refl ltac:(vm_compute; reflexivity) ltac:(vm_compute; lia)
                 ltac:(vm_compute; reflexivity) ltac:(now left)
                 ltac:(vm_compute; reflexivity)).
  split; apply H; cbn; lia.
Defined.
